(** * Story generator: repair loop and tree materializer

    A shallow embedding of [backend/core/story_generator.py] (class
    [StoryGenerator]) and [backend/core/prompts.py].

    The language model, the two pydantic output parsers and the pydantic
    validator are external to the two source files; they are collected in
    the class [Collaborators].  The SQLAlchemy session is modelled as a
    pair of tables (the rows flushed inside the open transaction) together
    with the tables that have been committed. *)

From stdpp Require Import gmap strings list fin_maps pretty sorting.

Set Warnings "-register-all".
Open Scope string_scope.
Open Scope list_scope.

(* ===================================================================== *)
(** ** prompts.py *)
(* ===================================================================== *)

Definition STORY_PROMPT : string := "
You are a creative story writer that creates engaging choose-your-own-adventure stories.
Generate a complete branching story with multiple paths and endings in the JSON format I'll specify.

The story should have:
1. A compelling title
2. A starting situation (root node) with 2-3 options
3. Each option should lead to another node with its own options
4. Some paths should lead to endings (both winning and losing)
5. At least one path should lead to a winning ending

Story structure requirements:
- Each node should have 2-3 options except for ending nodes
- The story should be 3-4 levels deep (including root node)
- Add variety in the path lengths (some end earlier, some later)
- Make sure there's at least one winning path

Don't simplify or omit any part of the story structure. 
Don't add any text outside of the JSON structure.

Additional output constraints (MANDATORY):
- All output must be valid JSON ONLY. Do not include any explanation or extra text.
- For each node, the `content` field MUST be concise: 1-3 short sentences, maximum 200 characters.
- Each `option.text` MUST be concise and clear, maximum 50 characters.
- Avoid long descriptive paragraphs or flowery language — keep node content short and focused.
- Ensure `nextNode` objects are complete and embedded (no nulls).
Follow these constraints strictly; overly verbose node text will be rejected.
".

(* ===================================================================== *)
(** ** Data: exceptions, messages, LLM-side documents *)
(* ===================================================================== *)

(** Python exception values.  [OutputParserException] is langchain's; its
    second positional argument is the attached observation.
    [ValidationError] is pydantic's.  [TransportError] stands for whatever
    [llm.invoke] itself raises. *)
Inductive Exception : Type :=
  | ValidationError (msg : string)
  | OutputParserException (msg : string) (observation : option Exception)
  | TransportError (msg : string).

(** [str(e)] *)
Definition str (e : Exception) : string :=
  match e with
  | ValidationError m => m
  | OutputParserException m _ => m
  | TransportError m => m
  end.

Inductive Message : Type :=
  | SystemMessage (content : string)
  | HumanMessage (content : string).

(** What [llm.invoke] hands back: normally a message object with a
    [content] attribute, otherwise the raw value itself. *)
Inductive LLMOutput : Type :=
  | AIMessage (content : string)
  | PlainText (s : string).

(** [raw_response.content if hasattr(raw_response, "content") else raw_response] *)
Definition response_text_of (raw_response : LLMOutput) : string :=
  match raw_response with
  | AIMessage c => c
  | PlainText s => s
  end.

(** A decoded JSON value; a raw mapping ([dict]) is a list of key/value
    pairs. *)
Inductive JValue : Type :=
  | JNull
  | JBool (b : bool)
  | JNum (n : Z)
  | JStr (s : string)
  | JList (l : list JValue)
  | JDict (kv : list (string * JValue)).

Definition RawDict : Type := list (string * JValue).

(** [StoryNodeLLM], [StoryOptionLLM] as the generator reads them: the
    fields [content], [isEnding], [isWinningEnding], [options] of a node,
    [text] and [nextNode] of an option.  An embedded node is either still
    a raw [dict] or already a typed object ([isinstance(_, dict)]). *)
Inductive StoryNodeLLM : Type :=
  | mkStoryNodeLLM (content : string) (isEnding isWinningEnding : bool)
                   (options : list StoryOptionLLM)
with StoryOptionLLM : Type :=
  | mkStoryOptionLLM (text : string) (nextNode : NodeData)
with NodeData : Type :=
  | NodeDict (d : RawDict)
  | NodeObj (n : StoryNodeLLM).

Definition content (n : StoryNodeLLM) : string :=
  match n with mkStoryNodeLLM c _ _ _ => c end.
Definition isEnding (n : StoryNodeLLM) : bool :=
  match n with mkStoryNodeLLM _ e _ _ => e end.
Definition isWinningEnding (n : StoryNodeLLM) : bool :=
  match n with mkStoryNodeLLM _ _ w _ => w end.
Definition options (n : StoryNodeLLM) : list StoryOptionLLM :=
  match n with mkStoryNodeLLM _ _ _ o => o end.
Definition text (o : StoryOptionLLM) : string :=
  match o with mkStoryOptionLLM t _ => t end.
Definition nextNode (o : StoryOptionLLM) : NodeData :=
  match o with mkStoryOptionLLM _ n => n end.

Record StoryLLMResponse : Type := mkStoryLLMResponse {
  title : string;
  rootNode : NodeData
}.

(* ===================================================================== *)
(** ** Data: stored rows and the session *)
(* ===================================================================== *)

Module Story.
Record t : Type := mk {
  id : nat;
  title : string;
  session_id : string
}.
End Story.

(** One entry of a stored options list: [{"text": ..., "node_id": ...}]. *)
Record OptionRow : Type := mkOptionRow {
  opt_text : string;
  node_id : nat
}.

Module StoryNode.
Record t : Type := mk {
  id : nat;
  story_id : nat;
  content : string;
  is_root : bool;
  is_ending : bool;
  is_winning_ending : bool;
  options : list OptionRow
}.

(** [node.options = payload] *)
Definition with_options (n : t) (payload : list OptionRow) : t :=
  mk (id n) (story_id n) (content n) (is_root n) (is_ending n)
     (is_winning_ending n) payload.
End StoryNode.

(** The session: rows flushed in the open transaction, the primary-key
    counters, and the rows that a [commit] has made durable. *)
Record Session : Type := mkSession {
  stories : gmap nat Story.t;
  nodes : gmap nat StoryNode.t;
  next_story_id : nat;
  next_node_id : nat;
  committed_stories : gmap nat Story.t;
  committed_nodes : gmap nat StoryNode.t
}.

(* ===================================================================== *)
(** ** External collaborators *)
(* ===================================================================== *)

Class Collaborators : Type := {
  (** state of the model endpoint *)
  LS : Type;
  (** [llm.invoke(messages)]: a response or an exception *)
  invoke : LS -> list Message -> (Exception + LLMOutput) * LS;
  (** [PydanticOutputParser(pydantic_object=StoryLLMResponse)] *)
  parse_story : string -> Exception + StoryLLMResponse;
  format_instructions : string;
  (** [PydanticOutputParser(pydantic_object=StoryNodeLLM)] *)
  parse_node : string -> Exception + StoryNodeLLM;
  node_format : string;
  (** [StoryNodeLLM.model_validate] *)
  model_validate : RawDict -> Exception + StoryNodeLLM;
  (** [str] of a dict, as interpolated into a prompt *)
  repr_dict : RawDict -> string
}.

(* ===================================================================== *)
(** ** Effects: a state-and-exception monad with an event log *)
(* ===================================================================== *)

Inductive Event : Type :=
  | EvInvoke (messages : list Message) (result : Exception + LLMOutput)
  | EvAddStory (s : Story.t)
  | EvAddNode (n : StoryNode.t)
  | EvSetOptions (id : nat) (payload : list OptionRow)
  | EvCommit.

Inductive Outcome (A : Type) : Type :=
  | Return (a : A)
  | Raise (e : Exception)
  | OutOfFuel.
Arguments Return {A} a.
Arguments Raise {A} e.
Arguments OutOfFuel {A}.

Section Model.
Context {C : Collaborators}.

Record World : Type := mkWorld {
  llm : LS;
  db : Session;
  log : list Event
}.

Definition M (A : Type) : Type := World -> Outcome A * World.

Definition ret {A} (a : A) : M A := fun w => (Return a, w).
Definition raise {A} (e : Exception) : M A := fun w => (Raise e, w).
Definition out_of_fuel {A} : M A := fun w => (OutOfFuel, w).

Definition bind {A B} (m : M A) (k : A -> M B) : M B :=
  fun w =>
    match m w with
    | (Return a, w') => k a w'
    | (Raise e, w') => (Raise e, w')
    | (OutOfFuel, w') => (OutOfFuel, w')
    end.

(** [try: m except Exception as e: h e] *)
Definition try_except {A} (m : M A) (h : Exception -> M A) : M A :=
  fun w =>
    match m w with
    | (Raise e, w') => h e w'
    | r => r
    end.

(** a pure call that either returns or raises *)
Definition lift {A} (r : Exception + A) : M A :=
  match r with
  | inl e => raise e
  | inr a => ret a
  end.

End Model.

Declare Scope story_scope.
Delimit Scope story_scope with story.
Notation "x <- c1 ;; c2" := (bind c1 (fun x => c2))
  (at level 100, c1 at next level, right associativity) : story_scope.
Notation "c1 ;;; c2" := (bind c1 (fun _ => c2))
  (at level 100, right associativity) : story_scope.
Notation "'try' m 'except' e => h" := (try_except m (fun e => h))
  (at level 100, e name, m at next level, right associativity) : story_scope.
Open Scope story_scope.

Section Generator.
Context {C : Collaborators}.

(** *** Primitive effects *)

Definition llm_invoke (messages : list Message) : M LLMOutput :=
  fun w =>
    let (r, s') := invoke (llm w) messages in
    let w' := mkWorld s' (db w) (log w ++ [EvInvoke messages r]) in
    match r with
    | inl e => (Raise e, w')
    | inr out => (Return out, w')
    end.

(** [story_db = Story(title=..., session_id=...); db.add(story_db); db.flush()] *)
Definition db_add_story (title session_id : string) : M Story.t :=
  fun w =>
    let s := db w in
    let row := Story.mk (next_story_id s) title session_id in
    let s' := mkSession (<[next_story_id s := row]> (stories s)) (nodes s)
                        (S (next_story_id s)) (next_node_id s)
                        (committed_stories s) (committed_nodes s) in
    (Return row, mkWorld (llm w) s' (log w ++ [EvAddStory row])).

(** [node = StoryNode(..., options=[]); db.add(node); db.flush()] *)
Definition db_add_node (story_id : nat) (content : string)
    (is_root is_ending is_winning_ending : bool) : M StoryNode.t :=
  fun w =>
    let s := db w in
    let row := StoryNode.mk (next_node_id s) story_id content is_root
                            is_ending is_winning_ending [] in
    let s' := mkSession (stories s) (<[next_node_id s := row]> (nodes s))
                        (next_story_id s) (S (next_node_id s))
                        (committed_stories s) (committed_nodes s) in
    (Return row, mkWorld (llm w) s' (log w ++ [EvAddNode row])).

(** [node.options = options_payload] followed by [db.flush()]; the table
    then holds the row with the new list.  The event records the
    assignment: whether the flush has a change to send is the session's
    affair (an empty payload on a fresh row leaves none).  For an ending
    node nothing is assigned and the trailing flush has nothing to do. *)
Definition db_set_options (node : StoryNode.t) (payload : list OptionRow)
    : M StoryNode.t :=
  fun w =>
    let s := db w in
    let node' := StoryNode.with_options node payload in
    let s' := mkSession (stories s) (<[StoryNode.id node := node']> (nodes s))
                        (next_story_id s) (next_node_id s)
                        (committed_stories s) (committed_nodes s) in
    (Return node',
     mkWorld (llm w) s' (log w ++ [EvSetOptions (StoryNode.id node) payload])).

(** [db.commit()] *)
Definition db_commit : M unit :=
  fun w =>
    let s := db w in
    let s' := mkSession (stories s) (nodes s)
                        (next_story_id s) (next_node_id s)
                        (stories s) (nodes s) in
    (Return tt, mkWorld (llm w) s' (log w ++ [EvCommit])).

(** *** Prompts of [generate_story] *)

Definition MAX_RETRIES : nat := 3.

Definition full_system_prompt : string :=
  (STORY_PROMPT ++ "

Output your story in this exact JSON format:
" ++ format_instructions)%string.

Definition initial_messages (theme : string) : list Message :=
  [ SystemMessage full_system_prompt;
    HumanMessage ("Create the story with this theme: " ++ theme) ].

(** the repair prompt built when the root check fails (lines 66-82) *)
Definition root_repair_prompt (ve : Exception) (response_text : string) : string :=
  (STORY_PROMPT ++ "

The previous JSON was INVALID.
Validation errors:
" ++ str ve ++ "

Here is the JSON you returned:
" ++ response_text ++ "

Fix ALL errors and ensure every node includes the required `content`, `isEnding`, `isWinningEnding`, and `options` fields.
Concise output constraints (RE-ENFORCE):
- Each node `content` MUST be 1-3 short sentences and no more than 200 characters.
- Each `option.text` MUST be concise and no more than 50 characters.
- Do NOT include any text outside of the required JSON structure.

Output your story in this exact JSON format:
" ++ format_instructions)%string.

(** the repair prompt built when parsing the document fails (lines 110-128) *)
Definition document_repair_prompt (e : Exception) : string :=
  (STORY_PROMPT ++ "

The previous JSON was INVALID.
Errors:
" ++ str e ++ "

Fix ALL errors.
Rules:
- nextNode MUST NEVER be null
- Every option MUST contain a complete nextNode
- Return the FULL corrected JSON ONLY.

Concise output constraints (RE-ENFORCE):
- Each node `content` MUST be 1-3 short sentences and no more than 200 characters.
- Each `option.text` MUST be concise and no more than 50 characters.
- Do NOT include any text outside of the required JSON structure.

Output your story in this exact JSON format:
" ++ format_instructions)%string.

Definition repair_messages (prompt : string) : list Message :=
  [ SystemMessage prompt; HumanMessage "Fix the JSON and return it." ].

(** the repair prompt for one embedded node (lines 205-217) *)
Definition node_repair_prompt (next_node_data : RawDict) : string :=
  (STORY_PROMPT ++ "

The following node JSON is INVALID or missing required fields:
" ++ repr_dict next_node_data ++ "

Fix ALL errors and return ONLY the corrected node JSON in this exact format:
" ++ node_format ++ "

Concise output constraints (RE-ENFORCE):
- `content`: 1-3 short sentences, max 200 characters.
- `option.text`: max 50 characters.
- Do not include any extra text outside the JSON.
")%string.

Definition node_repair_messages (next_node_data : RawDict) : list Message :=
  [ SystemMessage (node_repair_prompt next_node_data);
    HumanMessage "Fix the node JSON and return it." ].

(** *** The document repair loop (lines 45-143) *)

(** [root_node_check = story_structure.rootNode;
     if isinstance(root_node_check, dict): StoryNodeLLM.model_validate(root_node_check)] *)
Definition root_node_check (story_structure : StoryLLMResponse) : M unit :=
  match rootNode story_structure with
  | NodeDict d => _ <- lift (model_validate d) ;; ret tt
  | NodeObj _ => ret tt
  end.

(** How one pass through the body of the [for] loop ends: [break] with the
    accepted document, or on to the next iteration with [last_error].
    Every path that does not break assigns [last_error], so the body never
    reads the value it had on entry. *)
Inductive Ctl : Type :=
  | Break (story_structure : StoryLLMResponse)
  | Next (last_error : option Exception).

Definition attempt (theme : string) : M Ctl :=
  raw_response <- llm_invoke (initial_messages theme) ;;
  let response_text := response_text_of raw_response in
  try (
    story_structure <- lift (parse_story response_text) ;;
    try (
      root_node_check story_structure ;;;
      ret (Break story_structure)
    ) except ve => (
      raw_response <- llm_invoke (repair_messages (root_repair_prompt ve response_text)) ;;
      let response_text := response_text_of raw_response in
      try (
        story_structure <- lift (parse_story response_text) ;;
        root_node_check story_structure ;;;
        ret (Break story_structure)
      ) except e2 => (
        ret (Next (Some e2))
      )
    )
  ) except e => (
    raw_response <- llm_invoke (repair_messages (document_repair_prompt e)) ;;
    ret (Next (Some e))
  ).

(** [for attempt in range(n): ... else: raise OutputParserException(...)] *)
Fixpoint attempts (n : nat) (theme : string) (last_error : option Exception)
    : M StoryLLMResponse :=
  match n with
  | O =>
      raise (OutputParserException
               ("Failed to generate valid story after " ++ pretty MAX_RETRIES ++ " attempts")
               last_error)
  | S n' =>
      c <- attempt theme ;;
      match c with
      | Break story_structure => ret story_structure
      | Next last_error' => attempts n' theme last_error'
      end
  end.

(** *** The tree materializer (lines 170-250) *)

(** Lines 195-233: the embedded child of an option, validated and, when
    validation fails, repaired once. *)
Definition resolve_next_node (next_node_data : NodeData) : M StoryNodeLLM :=
  match next_node_data with
  | NodeDict d =>
      try (
        lift (model_validate d)
      ) except _e => (
        raw_repair <- llm_invoke (node_repair_messages d) ;;
        let repair_text := response_text_of raw_repair in
        try (
          lift (parse_node repair_text)
        ) except repair_exc => (
          raise (OutputParserException "Failed to repair invalid node JSON"
                                       (Some repair_exc))
        )
      )
  | NodeObj n => ret n
  end.

(** Lines 194-245: the loop over [node_data.options], with the recursive
    call abstracted as [rec]. *)
Fixpoint process_options (rec : StoryNodeLLM -> M StoryNode.t)
    (opts : list StoryOptionLLM) (options_payload : list OptionRow)
    : M (list OptionRow) :=
  match opts with
  | [] => ret options_payload
  | option :: rest =>
      next_node_data <- resolve_next_node (nextNode option) ;;
      child_node <- rec next_node_data ;;
      process_options rec rest
        (options_payload ++ [mkOptionRow (text option) (StoryNode.id child_node)])
  end.

(** The recursion of the source follows the embedded nodes, which a
    validator or a repair answer may produce afresh; [fuel] bounds its
    depth. *)
Fixpoint _process_story_node (fuel : nat) (story_id : nat)
    (node_data : StoryNodeLLM) (is_root : bool) : M StoryNode.t :=
  match fuel with
  | O => out_of_fuel
  | S fuel' =>
      node <- db_add_node story_id (content node_data) is_root
                          (isEnding node_data) (isWinningEnding node_data) ;;
      if negb (StoryNode.is_ending node) then
        options_payload <-
          process_options
            (fun child => _process_story_node fuel' story_id child false)
            (options node_data) [] ;;
        db_set_options node options_payload
      else
        ret node
  end.

(** *** [generate_story] (lines 39-168); [fuel] is for the materializer *)

Definition generate_story (fuel : nat) (session_id theme : string) : M Story.t :=
  story_structure <- attempts MAX_RETRIES theme None ;;
  story_db <- db_add_story (title story_structure) session_id ;;
  root_node <-
    match rootNode story_structure with
    | NodeDict d => lift (model_validate d)
    | NodeObj n => ret n
    end ;;
  _process_story_node fuel (Story.id story_db) root_node true ;;;
  db_commit ;;;
  ret story_db.

End Generator.

(* ===================================================================== *)
(** ** Specification vocabulary *)
(* ===================================================================== *)

Section Vocabulary.
Context {C : Collaborators}.

(** The error, if any, of the root check of lines 59-61 and 95-97. *)
Definition root_error (story_structure : StoryLLMResponse) : option Exception :=
  match rootNode story_structure with
  | NodeDict d =>
      match model_validate d with
      | inl e => Some e
      | inr _ => None
      end
  | NodeObj _ => None
  end.

(** Whole-document validation as the loop performs it on a response text:
    parse, then check the root. *)
Definition validate_document (response_text : string)
    : Exception + StoryLLMResponse :=
  match parse_story response_text with
  | inl e => inl e
  | inr story_structure =>
      match root_error story_structure with
      | Some e => inl e
      | None => inr story_structure
      end
  end.

(** The world after an [llm.invoke] that produced [r] and left the
    endpoint in state [s]. *)
Definition invoked (w : World) (messages : list Message)
    (r : Exception + LLMOutput) (s : LS) : World :=
  mkWorld s (db w) (log w ++ [EvInvoke messages r]).

(** Is this event a call to the model? a write to storage? *)
Definition is_invoke (ev : Event) : bool :=
  match ev with EvInvoke _ _ => true | _ => false end.
Definition is_write (ev : Event) : bool :=
  match ev with EvInvoke _ _ => false | _ => true end.
Definition is_commit (ev : Event) : bool :=
  match ev with EvCommit => true | _ => false end.

(** A trace of [n] consecutive rejected attempts.  Each attempt opens with
    a call carrying the initial messages and makes one repair call; the
    third index is the value of [last_error] when the attempts begin, the
    last one its value when they are over. *)
Inductive rejected_rounds (theme : string)
    : nat -> option Exception -> list Event -> option Exception -> Prop :=
  | rounds_done le :
      rejected_rounds theme 0 le [] le
  | round_unparsed n le o e r evs le' :
      parse_story (response_text_of o) = inl e ->
      rejected_rounds theme n (Some e) evs le' ->
      rejected_rounds theme (S n) le
        (EvInvoke (initial_messages theme) (inr o)
         :: EvInvoke (repair_messages (document_repair_prompt e)) (inr r)
         :: evs) le'
  | round_bad_root n le o st ve r e2 evs le' :
      parse_story (response_text_of o) = inr st ->
      root_error st = Some ve ->
      validate_document (response_text_of r) = inl e2 ->
      rejected_rounds theme n (Some e2) evs le' ->
      rejected_rounds theme (S n) le
        (EvInvoke (initial_messages theme) (inr o)
         :: EvInvoke (repair_messages (root_repair_prompt ve (response_text_of o))) (inr r)
         :: evs) le'.

(** *** Storage *)

(** Primary keys are handed out by a counter: no row sits at or above it. *)
Definition wf_session (s : Session) : Prop :=
  forall k, next_node_id s <= k -> nodes s !! k = None.

(** No dangling child reference: every [node_id] in a stored options list
    is the key of a row of the same story. *)
Definition no_dangling (tbl : gmap nat StoryNode.t) : Prop :=
  forall k row p,
    tbl !! k = Some row -> p ∈ StoryNode.options row ->
    exists child, tbl !! node_id p = Some child /\
                  StoryNode.story_id child = StoryNode.story_id row.

(** The node that the materializer descends into for an option: a typed
    child itself, a raw child as validated, or, when validation fails, a
    node parsed from a repair answer. *)
Definition resolved (next_node_data : NodeData) (n : StoryNodeLLM) : Prop :=
  match next_node_data with
  | NodeObj n' => n = n'
  | NodeDict d =>
      match model_validate d with
      | inr n' => n = n'
      | inl _ => exists repair_text, parse_node repair_text = inr n
      end
  end.

(** [row] carries the scalar fields of [nd]. *)
Definition row_matches (story_id : nat) (is_root : bool)
    (nd : StoryNodeLLM) (row : StoryNode.t) : Prop :=
  StoryNode.story_id row = story_id /\
  StoryNode.content row = content nd /\
  StoryNode.is_root row = is_root /\
  StoryNode.is_ending row = isEnding nd /\
  StoryNode.is_winning_ending row = isWinningEnding nd.

(** [stored tbl sid r nd row]: the table holds [row] for the node [nd] and,
    below it, the rows of the whole tree of [nd].  An ending has an empty
    options list; any other node has one [{text, node_id}] pair per option,
    in the order of the options, each naming the row of that option's
    child. *)
Inductive stored (tbl : gmap nat StoryNode.t) (story_id : nat)
    : bool -> StoryNodeLLM -> StoryNode.t -> Prop :=
  | stored_ending is_root nd row :
      tbl !! StoryNode.id row = Some row ->
      row_matches story_id is_root nd row ->
      isEnding nd = true ->
      StoryNode.options row = [] ->
      stored tbl story_id is_root nd row
  | stored_branching is_root nd row :
      tbl !! StoryNode.id row = Some row ->
      row_matches story_id is_root nd row ->
      isEnding nd = false ->
      stored_options tbl story_id (StoryNode.id row) (options nd)
                     (StoryNode.options row) ->
      stored tbl story_id is_root nd row
with stored_options (tbl : gmap nat StoryNode.t) (story_id : nat)
    : nat -> list StoryOptionLLM -> list OptionRow -> Prop :=
  | stored_options_nil parent :
      stored_options tbl story_id parent [] []
  | stored_options_cons parent o os p ps child child_row :
      opt_text p = text o ->
      node_id p = StoryNode.id child_row ->
      parent < StoryNode.id child_row ->
      resolved (nextNode o) child ->
      stored tbl story_id false child child_row ->
      stored_options tbl story_id parent os ps ->
      stored_options tbl story_id parent (o :: os) (p :: ps).

(** *** The log *)

(** Keys of the rows inserted by a run of events. *)
Fixpoint inserted (evs : list Event) : list nat :=
  match evs with
  | [] => []
  | EvAddNode row :: evs' => StoryNode.id row :: inserted evs'
  | _ :: evs' => inserted evs'
  end.

(** Every options list is written after the rows it names were inserted
    ([seen] holds the keys inserted so far). *)
Fixpoint children_first (seen : list nat) (evs : list Event) : bool :=
  match evs with
  | [] => true
  | EvAddNode row :: evs' => children_first (StoryNode.id row :: seen) evs'
  | EvSetOptions _ payload :: evs' =>
      forallb (fun p => bool_decide (node_id p ∈ seen)) payload
      && children_first seen evs'
  | _ :: evs' => children_first seen evs'
  end.

(** *** Trees *)

(** Trees in which every embedded node is a typed object. *)
Fixpoint all_typed (n : StoryNodeLLM) : bool :=
  match n with
  | mkStoryNodeLLM _ _ _ opts =>
      (fix go (l : list StoryOptionLLM) : bool :=
         match l with
         | [] => true
         | mkStoryOptionLLM _ (NodeObj c) :: l' => all_typed c && go l'
         | mkStoryOptionLLM _ (NodeDict _) :: _ => false
         end) opts
  end.

(** Height of the typed part of a tree. *)
Fixpoint height (n : StoryNodeLLM) : nat :=
  match n with
  | mkStoryNodeLLM _ _ _ opts =>
      S ((fix go (l : list StoryOptionLLM) : nat :=
            match l with
            | [] => 0
            | mkStoryOptionLLM _ (NodeObj c) :: l' => Nat.max (height c) (go l')
            | mkStoryOptionLLM _ (NodeDict _) :: l' => go l'
            end) opts)
  end.

(** The option-count rule of the data model, at one node. *)
Definition shape_ok (n : StoryNodeLLM) : bool :=
  if isEnding n then Nat.eqb (length (options n)) 0
  else Nat.leb 2 (length (options n)) && Nat.leb (length (options n)) 3.

(** The rule at every node of the typed part of a tree. *)
Fixpoint tree_shape_ok (n : StoryNodeLLM) : bool :=
  match n with
  | mkStoryNodeLLM _ _ _ opts =>
      shape_ok n &&
      (fix go (l : list StoryOptionLLM) : bool :=
         match l with
         | [] => true
         | mkStoryOptionLLM _ (NodeObj c) :: l' => tree_shape_ok c && go l'
         | mkStoryOptionLLM _ (NodeDict _) :: l' => go l'
         end) opts
  end.

(** [tbl'] keeps every row that [tbl] holds at key [lo] or above. *)
Definition keeps_from (lo : nat) (tbl tbl' : gmap nat StoryNode.t) : Prop :=
  forall k row, lo <= k -> tbl !! k = Some row -> tbl' !! k = Some row.

(** The world after [db.add(node); db.flush()] of a fresh node row. *)
Definition added (w : World) (node : StoryNode.t) : World :=
  mkWorld (llm w)
    (mkSession (stories (db w)) (<[next_node_id (db w) := node]> (nodes (db w)))
               (next_story_id (db w)) (S (next_node_id (db w)))
               (committed_stories (db w)) (committed_nodes (db w)))
    (log w ++ [EvAddNode node]).

(** The fresh row of a node, before its options are known. *)
Definition fresh_row (w : World) (story_id : nat) (nd : StoryNodeLLM)
    (is_root : bool) : StoryNode.t :=
  StoryNode.mk (next_node_id (db w)) story_id (content nd) is_root
               (isEnding nd) (isWinningEnding nd) [].

(** A row written by a materialize call for story [sid]: it sits at its
    own key, belongs to the story, and names only rows of the story. *)
Definition row_ok (sid : nat) (tbl : gmap nat StoryNode.t) (k : nat)
    (row : StoryNode.t) : Prop :=
  StoryNode.id row = k /\
  StoryNode.story_id row = sid /\
  forall p, p ∈ StoryNode.options row ->
    exists child, tbl !! node_id p = Some child /\ StoryNode.story_id child = sid.

(** What part of a materialize call for story [sid] may have done between
    two worlds: rows below the old counter are as they were, rows above it
    are rows of the story, only the node table and its counter moved, the
    new events contain no commit and write each options list after the
    rows it names. *)
Record extends (sid : nat) (w w' : World) : Prop := mkExtends {
  ext_wf : wf_session (db w');
  ext_next : next_node_id (db w) <= next_node_id (db w');
  ext_frame : forall k, k < next_node_id (db w) ->
                nodes (db w') !! k = nodes (db w) !! k;
  ext_stories : stories (db w') = stories (db w);
  ext_next_story : next_story_id (db w') = next_story_id (db w);
  ext_committed_stories : committed_stories (db w') = committed_stories (db w);
  ext_committed_nodes : committed_nodes (db w') = committed_nodes (db w);
  ext_new : forall k row, next_node_id (db w) <= k ->
              nodes (db w') !! k = Some row -> row_ok sid (nodes (db w')) k row;
  ext_log : exists evs,
      log w' = log w ++ evs /\
      forallb (fun ev => negb (is_commit ev)) evs = true /\
      children_first [] evs = true /\
      (forall k, next_node_id (db w) <= k < next_node_id (db w') ->
                 k ∈ inserted evs)
}.

(** What a materialize call for a node of story [sid] guarantees. *)
Definition materialized (sid : nat) (is_root : bool) (nd : StoryNodeLLM)
    (w : World) (out : Outcome StoryNode.t) (w' : World) : Prop :=
  extends sid w w' /\
  match out with
  | Return row =>
      StoryNode.id row = next_node_id (db w) /\
      stored (nodes (db w')) sid is_root nd row
  | _ => True
  end.

(** The world after [db.add(story_db); db.flush()]. *)
Definition story_added (w : World) (story : Story.t) : World :=
  mkWorld (llm w)
    (mkSession (<[next_story_id (db w) := story]> (stories (db w))) (nodes (db w))
               (S (next_story_id (db w))) (next_node_id (db w))
               (committed_stories (db w)) (committed_nodes (db w)))
    (log w ++ [EvAddStory story]).

(** The world after [db.commit()]. *)
Definition committed (w : World) : World :=
  mkWorld (llm w)
    (mkSession (stories (db w)) (nodes (db w))
               (next_story_id (db w)) (next_node_id (db w))
               (stories (db w)) (nodes (db w)))
    (log w ++ [EvCommit]).

(** Lines 156-158: the root as handed to the materializer. *)
Definition root_of (story_structure : StoryLLMResponse)
    : Exception + StoryNodeLLM :=
  match rootNode story_structure with
  | NodeDict d => model_validate d
  | NodeObj n => inr n
  end.

Definition no_commit (evs : list Event) : bool :=
  forallb (fun ev => negb (is_commit ev)) evs.

End Vocabulary.

(** Induction over a stored tree and its options lists together. *)
Scheme stored_mut := Minimality for stored Sort Prop
  with stored_options_mut := Minimality for stored_options Sort Prop.

(* ===================================================================== *)
(** ** Three statements of the specification that the code does not meet *)
(* ===================================================================== *)

(** "A failure of the Generation Client call is counted against the retry
    budget: the loop does not abort, builds no repair prompt for it, and
    proceeds to the next attempt."  With a budget of three, a failed
    opening call would then be followed by at least one more call. *)
Definition transport_failure_counted_against_budget : Prop :=
  forall (C : Collaborators) (session_id theme : string) (w : World) te s1,
    invoke (llm w) (initial_messages theme) = (inl te, s1) ->
    exists fuel messages r evs,
      log (snd (generate_story fuel session_id theme w)) =
        log w ++ EvInvoke (initial_messages theme) (inl te)
              :: EvInvoke messages r :: evs.

(** "If the root check fails, the loop builds a node-level repair prompt
    for the root and retries once inline."  A node-level repair asks for
    the corrected node and validates the answer as a node; an answer that
    is a valid node would then be accepted. *)
Definition root_repaired_at_node_level : Prop :=
  forall (C : Collaborators) (theme : string) (w : World) o s1 st ve o2 s2 n,
    invoke (llm w) (initial_messages theme) = (inr o, s1) ->
    parse_story (response_text_of o) = inr st ->
    root_error st = Some ve ->
    invoke s1 (repair_messages (root_repair_prompt ve (response_text_of o)))
      = (inr o2, s2) ->
    parse_node (response_text_of o2) = inr n ->
    exists st' w', attempt theme w = (Return (Break st'), w').

(** "Materialization rejects any document in which some non-ending node
    does not have 2-3 options or some ending node has options, before any
    storage write." *)
Definition shape_rejected_before_storage : Prop :=
  forall (C : Collaborators) (sid : nat) (nd : StoryNodeLLM)
         (is_root : bool) (w : World),
    tree_shape_ok nd = false ->
    exists fuel e w',
      _process_story_node fuel sid nd is_root w = (Raise e, w') /\
      db w' = db w.

(* ===================================================================== *)
(** ** Further vocabulary: counting effects, trees that need no repair *)
(* ===================================================================== *)

Section Accounting.
Context {C : Collaborators}.

Definition is_add_node (ev : Event) : bool :=
  match ev with EvAddNode _ => true | _ => false end.

(** How many events of a kind a run of events holds. *)
Fixpoint count_events (kind : Event -> bool) (evs : list Event) : nat :=
  match evs with
  | [] => 0
  | ev :: evs' => (if kind ev then 1 else 0) + count_events kind evs'
  end.

(** The node rows a run of events inserted, in order. *)
Fixpoint added_rows (evs : list Event) : list StoryNode.t :=
  match evs with
  | [] => []
  | EvAddNode row :: evs' => row :: added_rows evs'
  | _ :: evs' => added_rows evs'
  end.

(** The nodes of a typed tree that the materializer reaches: it does not
    descend below an ending. *)
Fixpoint node_count (n : StoryNodeLLM) : nat :=
  match n with
  | mkStoryNodeLLM _ e _ opts =>
      S (if e then 0
         else (fix go (l : list StoryOptionLLM) : nat :=
                 match l with
                 | [] => 0
                 | mkStoryOptionLLM _ (NodeObj c) :: l' => node_count c + go l'
                 | mkStoryOptionLLM _ (NodeDict _) :: l' => go l'
                 end) opts)
  end.

(** The sum of a measure over the typed children of a list of options. *)
Fixpoint children_sum (f : StoryNodeLLM -> nat) (opts : list StoryOptionLLM) : nat :=
  match opts with
  | [] => 0
  | o :: opts' =>
      match nextNode o with
      | NodeObj c => f c
      | NodeDict _ => 0
      end + children_sum f opts'
  end.

(** [repair_free n nd]: within depth [n], every embedded node that the
    materializer reaches from [nd] is a typed object or a raw mapping that
    the validator accepts. *)
Fixpoint repair_free (n : nat) (nd : StoryNodeLLM) : bool :=
  match n with
  | O => false
  | S n' =>
      isEnding nd ||
      forallb (fun o =>
                 match nextNode o with
                 | NodeObj c => repair_free n' c
                 | NodeDict d =>
                     match model_validate d with
                     | inr c => repair_free n' c
                     | inl _ => false
                     end
                 end) (options nd)
  end.

(** A call to the model as the generator makes them: one system message,
    whose text opens with [STORY_PROMPT], then one human message. *)
Definition well_formed_call (messages : list Message) : Prop :=
  exists system human,
    messages = [SystemMessage system; HumanMessage human] /\
    String.prefix STORY_PROMPT system = true.

Definition event_ok (ev : Event) : Prop :=
  match ev with
  | EvInvoke messages _ => well_formed_call messages
  | _ => True
  end.

(** The three ways in which [generate_story] can end with an exception. *)
Definition is_budget_exhausted (e : Exception) : Prop :=
  exists last_error,
    e = OutputParserException "Failed to generate valid story after 3 attempts"
                              (Some last_error).

Definition is_node_repair_failure (e : Exception) : Prop :=
  exists repair_exc,
    e = OutputParserException "Failed to repair invalid node JSON" (Some repair_exc).

(** [e] is what the last call to the model raised. *)
Definition raised_by_client (e : Exception) (l : list Event) : Prop :=
  exists l0 messages, l = l0 ++ [EvInvoke messages (inl e)].

(** An exception of the materializer: a failed node repair, or whatever the
    client raised in the call just made. *)
Definition materializer_raise {A} (r : Outcome A * World) : Prop :=
  match fst r with
  | Raise e => is_node_repair_failure e \/ raised_by_client e (log (snd r))
  | _ => True
  end.

(** A row below the root of story [sid]. *)
Definition inner_row (sid : nat) (row : StoryNode.t) : Prop :=
  StoryNode.is_root row = false /\ StoryNode.story_id row = sid.

End Accounting.

(* ===================================================================== *)
(** ** Concrete collaborators for examples *)
(* ===================================================================== *)

Module Mock.

(** An endpoint that replays a script of results, one per call. *)
Definition scripted_invoke (s : list (Exception + LLMOutput))
    (_ : list Message) : (Exception + LLMOutput) * list (Exception + LLMOutput) :=
  match s with
  | [] => (inl (TransportError "script exhausted"), [])
  | r :: s' => (r, s')
  end.

(** A validator in the manner of a pydantic model with four required
    fields, whose options embed their next node as a mapping. *)
Fixpoint field (k : string) (d : RawDict) : option JValue :=
  match d with
  | [] => None
  | (k', v) :: d' => if String.eqb k k' then Some v else field k d'
  end.

Definition validate_option (v : JValue) : Exception + StoryOptionLLM :=
  match v with
  | JDict kv =>
      match field "text" kv, field "nextNode" kv with
      | Some (JStr t), Some (JDict child) => inr (mkStoryOptionLLM t (NodeDict child))
      | _, _ => inl (ValidationError "options: text and nextNode are required")
      end
  | _ => inl (ValidationError "options: mapping expected")
  end.

Fixpoint validate_options (l : list JValue) : Exception + list StoryOptionLLM :=
  match l with
  | [] => inr []
  | v :: l' =>
      match validate_option v, validate_options l' with
      | inr o, inr os => inr (o :: os)
      | inl e, _ => inl e
      | _, inl e => inl e
      end
  end.

Definition validate_dict (d : RawDict) : Exception + StoryNodeLLM :=
  match field "content" d, field "isEnding" d,
        field "isWinningEnding" d, field "options" d with
  | Some (JStr c), Some (JBool e), Some (JBool w), Some (JList os) =>
      match validate_options os with
      | inr opts => inr (mkStoryNodeLLM c e w opts)
      | inl err => inl err
      end
  | _, _, _, _ => inl (ValidationError "Field required")
  end.

(** Sample nodes. *)
Definition win : StoryNodeLLM := mkStoryNodeLLM "You find the treasure." true true [].
Definition lose : StoryNodeLLM := mkStoryNodeLLM "You fall into a pit." true false [].
Definition fork : StoryNodeLLM :=
  mkStoryNodeLLM "A fork in the road." false false
    [ mkStoryOptionLLM "Go left" (NodeObj win);
      mkStoryOptionLLM "Go right" (NodeObj lose) ].

Definition win_dict : RawDict :=
  [ ("content", JStr "You find the treasure."); ("isEnding", JBool true);
    ("isWinningEnding", JBool true); ("options", JList []) ].
Definition lose_dict : RawDict :=
  [ ("content", JStr "You fall into a pit."); ("isEnding", JBool true);
    ("isWinningEnding", JBool false); ("options", JList []) ].
(** a node without its [isEnding] field *)
Definition broken_dict : RawDict :=
  [ ("content", JStr "You fall into a pit.");
    ("isWinningEnding", JBool false); ("options", JList []) ].
Definition fork_dict : RawDict :=
  [ ("content", JStr "A fork in the road."); ("isEnding", JBool false);
    ("isWinningEnding", JBool false);
    ("options", JList [ JDict [("text", JStr "Go left"); ("nextNode", JDict win_dict)];
                        JDict [("text", JStr "Go right"); ("nextNode", JDict lose_dict)] ]) ].

(** a non-ending node with a single option, an ending that carries an
    option, and a node whose second child is a broken mapping *)
Definition corridor : StoryNodeLLM :=
  mkStoryNodeLLM "A long corridor." false false
    [ mkStoryOptionLLM "Walk on" (NodeObj win) ].
(** the same corridor with its child still a raw mapping *)
Definition raw_corridor : StoryNodeLLM :=
  mkStoryNodeLLM "A long corridor." false false
    [ mkStoryOptionLLM "Walk on" (NodeDict win_dict) ].
Definition loud_ending : StoryNodeLLM :=
  mkStoryNodeLLM "The end." true false
    [ mkStoryOptionLLM "Go back" (NodeObj win) ].
Definition cracked : StoryNodeLLM :=
  mkStoryNodeLLM "A fork in the road." false false
    [ mkStoryOptionLLM "Go left" (NodeObj win);
      mkStoryOptionLLM "Go right" (NodeDict broken_dict) ].

(** The parsers recognise a handful of response texts. *)
Definition story_texts : list (string * StoryLLMResponse) :=
  [ ("<story: typed fork>", mkStoryLLMResponse "The Road" (NodeObj fork));
    ("<story: raw fork>", mkStoryLLMResponse "The Road" (NodeDict fork_dict));
    ("<story: broken root>", mkStoryLLMResponse "The Road" (NodeDict broken_dict));
    ("<story: corridor>", mkStoryLLMResponse "The Corridor" (NodeObj corridor));
    ("<story: cracked>", mkStoryLLMResponse "The Road" (NodeObj cracked)) ].

Definition node_texts : list (string * StoryNodeLLM) :=
  [ ("<node: lose>", lose); ("<node: win>", win) ].

Fixpoint lookup_text {A} (t : string) (l : list (string * A)) : option A :=
  match l with
  | [] => None
  | (k, a) :: l' => if String.eqb t k then Some a else lookup_text t l'
  end.

Definition parse_with {A} (table : list (string * A)) (t : string) : Exception + A :=
  match lookup_text t table with
  | Some a => inr a
  | None => inl (OutputParserException ("Invalid json output: " ++ t) None)
  end.

Definition scripted : Collaborators := {|
  LS := list (Exception + LLMOutput);
  invoke := scripted_invoke;
  parse_story := parse_with story_texts;
  format_instructions := "<story schema>";
  parse_node := parse_with node_texts;
  node_format := "<node schema>";
  model_validate := validate_dict;
  repr_dict := fun _ => "<dict>"
|}.

(** An endpoint that answers every prompt with the same prose. *)
Definition stubborn : Collaborators := {|
  LS := unit;
  invoke := fun _ _ => (inr (AIMessage "Once upon a time..."), tt);
  parse_story := parse_with story_texts;
  format_instructions := "<story schema>";
  parse_node := parse_with node_texts;
  node_format := "<node schema>";
  model_validate := validate_dict;
  repr_dict := fun _ => "<dict>"
|}.

Definition empty_session : Session := mkSession ∅ ∅ 1 1 ∅ ∅.

Definition start (script : list (Exception + LLMOutput)) : @World scripted :=
  @mkWorld scripted script empty_session [].

Definition stubborn_start : @World stubborn :=
  @mkWorld stubborn tt empty_session [].

(** Runs used as examples below. *)

(** the model answers with a well-formed two-level story *)
Definition fork_run : Outcome Story.t * @World scripted :=
  @generate_story scripted 3 "session-1" "pirates"
    (start [inr (AIMessage "<story: typed fork>")]).

(** the second child of the root is a broken mapping and the repair
    answer is not a node either *)
Definition cracked_run : Outcome Story.t * @World scripted :=
  @generate_story scripted 3 "session-1" "pirates"
    (start [inr (AIMessage "<story: cracked>"); inr (AIMessage "garbage")]).

(** the first call to the model fails, a good answer waits behind it *)
Definition blinking_start : @World scripted :=
  start [inl (TransportError "connection reset");
         inr (AIMessage "<story: typed fork>")].

Definition fork_row : StoryNode.t :=
  StoryNode.mk 1 1 "A fork in the road." true false false
    [mkOptionRow "Go left" 2; mkOptionRow "Go right" 3].

Definition story_row : Story.t := Story.mk 1 "The Road" "session-1".

Definition repair_failed : Exception :=
  OutputParserException "Failed to repair invalid node JSON"
    (Some (OutputParserException "Invalid json output: garbage" None)).

(** the fork as the validator returns it from [fork_dict]: its children
    are still raw mappings *)
Definition raw_fork : StoryNodeLLM :=
  mkStoryNodeLLM "A fork in the road." false false
    [ mkStoryOptionLLM "Go left" (NodeDict win_dict);
      mkStoryOptionLLM "Go right" (NodeDict lose_dict) ].

(** a session that already holds a story with one node *)
Definition old_story : Story.t := Story.mk 1 "An older tale" "session-0".
Definition old_node : StoryNode.t :=
  StoryNode.mk 1 1 "It was a dark night." true true false [].
Definition busy_session : Session :=
  mkSession (<[1 := old_story]> ∅) (<[1 := old_node]> ∅) 2 2
            (<[1 := old_story]> ∅) (<[1 := old_node]> ∅).
Definition busy_start (script : list (Exception + LLMOutput)) : @World scripted :=
  @mkWorld scripted script busy_session [].

(** in every attempt the root is broken, the call with the root repair
    prompt fails, and the document repair prompt is answered *)
Definition worst_script : list (Exception + LLMOutput) :=
  [ inr (AIMessage "<story: broken root>"); inl (TransportError "timeout");
    inr (AIMessage "sorry");
    inr (AIMessage "<story: broken root>"); inl (TransportError "timeout");
    inr (AIMessage "sorry");
    inr (AIMessage "<story: broken root>"); inl (TransportError "timeout");
    inr (AIMessage "sorry") ].

End Mock.

(* ===================================================================== *)
(** ** The repair loop: one attempt *)
(* ===================================================================== *)

Section LoopFacts.
Context {C : Collaborators}.

Lemma llm_invoke_eq (w : World) (messages : list Message) r s :
  invoke (llm w) messages = (r, s) ->
  llm_invoke messages w =
    (match r with inl e => Raise e | inr out => Return out end,
     invoked w messages r s).
Proof.
  intros H. unfold llm_invoke, invoked. rewrite H. destruct r; reflexivity.
Qed.

Lemma root_node_check_eq (st : StoryLLMResponse) (w : World) :
  root_node_check st w =
    (match root_error st with Some e => Raise e | None => Return tt end, w).
Proof.
  unfold root_node_check, root_error.
  destruct (rootNode st) as [d|n]; [|reflexivity].
  unfold bind, lift. destruct (model_validate d); reflexivity.
Qed.

(** Lines 92-101: re-parse and re-check the answer to the root repair. *)
Lemma revalidate_eq (response_text : string) (w : World) :
  (try (story_structure <- lift (parse_story response_text) ;;
        root_node_check story_structure ;;;
        ret (Break story_structure))
   except e2 => ret (Next (Some e2))) w =
  (Return (match validate_document response_text with
           | inr st => Break st
           | inl e2 => Next (Some e2)
           end), w).
Proof.
  unfold try_except, bind, validate_document, lift.
  destruct (parse_story response_text) as [e|st]; [reflexivity|].
  unfold ret at 1. rewrite root_node_check_eq.
  destruct (root_error st); reflexivity.
Qed.

(** The call that opens an attempt fails: nothing catches it. *)
Lemma attempt_transport (theme : string) (w : World) te s1 :
  invoke (llm w) (initial_messages theme) = (inl te, s1) ->
  attempt theme w = (Raise te, invoked w (initial_messages theme) (inl te) s1).
Proof.
  intros H. unfold attempt, bind. rewrite (llm_invoke_eq _ _ _ _ H). reflexivity.
Qed.

(** The response does not parse: the handler of line 106. *)
Lemma attempt_parse_error (theme : string) (w : World) o s1 e r s2 :
  invoke (llm w) (initial_messages theme) = (inr o, s1) ->
  parse_story (response_text_of o) = inl e ->
  invoke s1 (repair_messages (document_repair_prompt e)) = (r, s2) ->
  attempt theme w =
    (match r with inl te => Raise te | inr _ => Return (Next (Some e)) end,
     invoked (invoked w (initial_messages theme) (inr o) s1)
             (repair_messages (document_repair_prompt e)) r s2).
Proof.
  intros H1 H2 H3. unfold attempt, bind at 1.
  rewrite (llm_invoke_eq _ _ _ _ H1). cbv beta iota zeta.
  unfold try_except at 1, bind at 1. rewrite H2. cbn [lift raise].
  unfold bind. erewrite llm_invoke_eq by exact H3.
  destruct r; reflexivity.
Qed.

(** The response parses and its root passes the check: line 104. *)
Lemma attempt_accept (theme : string) (w : World) o s1 st :
  invoke (llm w) (initial_messages theme) = (inr o, s1) ->
  parse_story (response_text_of o) = inr st ->
  root_error st = None ->
  attempt theme w =
    (Return (Break st), invoked w (initial_messages theme) (inr o) s1).
Proof.
  intros H1 H2 H3. unfold attempt, bind at 1.
  rewrite (llm_invoke_eq _ _ _ _ H1). cbv beta iota zeta.
  unfold try_except at 1, bind at 1. rewrite H2. cbn [lift ret].
  unfold try_except, bind. rewrite root_node_check_eq, H3. reflexivity.
Qed.

(** The response parses, the root fails the check, the repair call answers. *)
Lemma attempt_root_repair (theme : string) (w : World) o s1 st ve o2 s2 :
  invoke (llm w) (initial_messages theme) = (inr o, s1) ->
  parse_story (response_text_of o) = inr st ->
  root_error st = Some ve ->
  invoke s1 (repair_messages (root_repair_prompt ve (response_text_of o)))
    = (inr o2, s2) ->
  attempt theme w =
    (Return (match validate_document (response_text_of o2) with
             | inr st2 => Break st2
             | inl e2 => Next (Some e2)
             end),
     invoked (invoked w (initial_messages theme) (inr o) s1)
             (repair_messages (root_repair_prompt ve (response_text_of o)))
             (inr o2) s2).
Proof.
  intros H1 H2 H3 H4. unfold attempt, bind at 1.
  rewrite (llm_invoke_eq _ _ _ _ H1). cbv beta iota zeta.
  unfold try_except at 1, bind at 1. rewrite H2. cbn [lift ret].
  unfold try_except at 1, bind at 1. rewrite root_node_check_eq, H3.
  unfold bind at 1. erewrite llm_invoke_eq by exact H4.
  cbv beta iota zeta. rewrite revalidate_eq. reflexivity.
Qed.

(** The response parses, the root fails the check, and the repair call
    itself fails: the failure lands in the handler of line 106. *)
Lemma attempt_root_repair_transport (theme : string) (w : World)
    o s1 st ve te s2 r3 s3 :
  invoke (llm w) (initial_messages theme) = (inr o, s1) ->
  parse_story (response_text_of o) = inr st ->
  root_error st = Some ve ->
  invoke s1 (repair_messages (root_repair_prompt ve (response_text_of o)))
    = (inl te, s2) ->
  invoke s2 (repair_messages (document_repair_prompt te)) = (r3, s3) ->
  attempt theme w =
    (match r3 with inl te' => Raise te' | inr _ => Return (Next (Some te)) end,
     invoked (invoked (invoked w (initial_messages theme) (inr o) s1)
                (repair_messages (root_repair_prompt ve (response_text_of o)))
                (inl te) s2)
             (repair_messages (document_repair_prompt te)) r3 s3).
Proof.
  intros H1 H2 H3 H4 H5. unfold attempt, bind at 1.
  rewrite (llm_invoke_eq _ _ _ _ H1). cbv beta iota zeta.
  unfold try_except at 1, bind at 1. rewrite H2. cbn [lift ret].
  unfold try_except at 1, bind at 1. rewrite root_node_check_eq, H3.
  unfold bind at 1. erewrite llm_invoke_eq by exact H4.
  cbv beta iota zeta.
  unfold bind. erewrite llm_invoke_eq by exact H5.
  destruct r3; reflexivity.
Qed.

End LoopFacts.

(* ===================================================================== *)
(** ** The repair loop: the budget *)
(* ===================================================================== *)

Section BudgetFacts.
Context {C : Collaborators}.

Lemma attempts_S (n : nat) (theme : string) le (w : World) :
  attempts (S n) theme le w =
    match attempt theme w with
    | (Return (Break st), w') => (Return st, w')
    | (Return (Next le'), w') => attempts n theme le' w'
    | (Raise e, w') => (Raise e, w')
    | (OutOfFuel, w') => (OutOfFuel, w')
    end.
Proof.
  cbn [attempts]. unfold bind.
  destruct (attempt theme w) as [[[st|le']|e|] w']; reflexivity.
Qed.

Lemma invoked_invoked_log (w : World) m1 r1 s1 m2 r2 s2 :
  log (invoked (invoked w m1 r1 s1) m2 r2 s2)
  = log w ++ [EvInvoke m1 r1; EvInvoke m2 r2].
Proof. cbn. rewrite <- app_assoc. reflexivity. Qed.

(** Every response is rejected: [n] attempts are made, then the loop gives
    up with the error of the last one. *)
Lemma attempts_all_rejected (theme : string) :
  (forall s msgs, exists o s', invoke s msgs = (inr o, s') /\
                  exists e, validate_document (response_text_of o) = inl e) ->
  forall n le (w : World),
  exists s' evs le',
    attempts n theme le w =
      (Raise (OutputParserException
                ("Failed to generate valid story after " ++ pretty MAX_RETRIES ++ " attempts")
                le'),
       mkWorld s' (db w) (log w ++ evs)) /\
    rejected_rounds theme n le evs le'.
Proof.
  intros Hrej n. induction n as [|n IH]; intros le w.
  - exists (llm w), [], le. split; [|constructor].
    cbn. unfold raise. rewrite app_nil_r. destruct w; reflexivity.
  - destruct (Hrej (llm w) (initial_messages theme)) as (o & s1 & Ho & e0 & He0).
    rewrite attempts_S.
    unfold validate_document in He0.
    destruct (parse_story (response_text_of o)) as [e|st] eqn:Hparse.
    + destruct (Hrej s1 (repair_messages (document_repair_prompt e)))
        as (r & s2 & Hr & _).
      rewrite (attempt_parse_error _ _ _ _ _ _ _ Ho Hparse Hr).
      destruct (IH (Some e) (invoked (invoked w (initial_messages theme) (inr o) s1)
                      (repair_messages (document_repair_prompt e)) (inr r) s2))
        as (s' & evs & le' & Heq & Hrounds).
      eexists s', _, le'. split.
      * rewrite Heq. rewrite invoked_invoked_log, <- app_assoc. reflexivity.
      * cbn [app]. eapply round_unparsed; eassumption.
    + destruct (root_error st) as [ve|] eqn:Hroot; [|discriminate].
      destruct (Hrej s1 (repair_messages (root_repair_prompt ve (response_text_of o))))
        as (r & s2 & Hr & e2 & He2).
      rewrite (attempt_root_repair _ _ _ _ _ _ _ _ Ho Hparse Hroot Hr), He2.
      destruct (IH (Some e2) (invoked (invoked w (initial_messages theme) (inr o) s1)
                      (repair_messages (root_repair_prompt ve (response_text_of o)))
                      (inr r) s2))
        as (s' & evs & le' & Heq & Hrounds).
      eexists s', _, le'. split.
      * rewrite Heq. rewrite invoked_invoked_log, <- app_assoc. reflexivity.
      * cbn [app]. eapply round_bad_root; eassumption.
Qed.

Lemma rejected_rounds_last (theme : string) n le evs le' :
  rejected_rounds theme (S n) le evs le' -> exists e, le' = Some e.
Proof.
  revert le evs. induction n as [|n IH]; intros le evs H.
  - inversion H as [| ? ? ? e ? ? ? ? Hrest | ? ? ? ? ? ? e2 ? ? ? ? ? Hrest]; subst;
      inversion Hrest; subst; eauto.
  - inversion H; subst; eauto.
Qed.

Lemma rejected_rounds_length (theme : string) n le evs le' :
  rejected_rounds theme n le evs le' -> length evs = 2 * n.
Proof. induction 1; cbn [length]; lia. Qed.

Lemma generate_story_raise_in_loop (fuel : nat) (session_id theme : string)
    (w : World) e w' :
  attempts MAX_RETRIES theme None w = (Raise e, w') ->
  generate_story fuel session_id theme w = (Raise e, w').
Proof. intros H. unfold generate_story, bind. rewrite H. reflexivity. Qed.

(** C1.  If every response of the model fails document validation, then
    [generate_story] makes exactly [MAX_RETRIES] = 3 attempts (three calls
    with the initial messages, each followed by one repair call) and raises
    the [OutputParserException] "Failed to generate valid story after 3
    attempts" carrying the error observed in the last attempt; storage is
    left untouched. *)
Theorem budget_exhaustion (fuel : nat) (session_id theme : string) (w : World) :
  (forall s msgs, exists o s', invoke s msgs = (inr o, s') /\
                  exists e, validate_document (response_text_of o) = inl e) ->
  exists s' evs last_error,
    generate_story fuel session_id theme w =
      (Raise (OutputParserException "Failed to generate valid story after 3 attempts"
                                    (Some last_error)),
       mkWorld s' (db w) (log w ++ evs)) /\
    rejected_rounds theme 3 None evs (Some last_error) /\
    length evs = 6.
Proof.
  intros Hrej.
  destruct (attempts_all_rejected theme Hrej MAX_RETRIES None w)
    as (s' & evs & le' & Heq & Hrounds).
  destruct (rejected_rounds_last _ _ _ _ _ Hrounds) as [e ->].
  exists s', evs, e. split; [|split].
  - apply generate_story_raise_in_loop. exact Heq.
  - exact Hrounds.
  - apply rejected_rounds_length in Hrounds. exact Hrounds.
Qed.

End BudgetFacts.

Lemma budget_exhaustion_witness :
  exists s' evs last_error,
    @generate_story Mock.stubborn 5 "session-1" "pirates" Mock.stubborn_start =
      (Raise (OutputParserException "Failed to generate valid story after 3 attempts"
                                    (Some last_error)),
       @mkWorld Mock.stubborn s' (db Mock.stubborn_start)
                (log Mock.stubborn_start ++ evs)) /\
    @rejected_rounds Mock.stubborn "pirates" 3 None evs (Some last_error) /\
    length evs = 6.
Proof.
  apply (@budget_exhaustion Mock.stubborn 5 "session-1" "pirates" Mock.stubborn_start).
  intros s msgs. exists (AIMessage "Once upon a time..."), tt.
  split; [reflexivity|]. eexists. vm_compute. reflexivity.
Defined.

Section AttemptFacts.
Context {C : Collaborators}.

(** An accepted document is one that some response validated to. *)
Lemma attempt_break (theme : string) (w : World) st w' :
  attempt theme w = (Return (Break st), w') ->
  exists o, validate_document (response_text_of o) = inr st.
Proof.
  destruct (invoke (llm w) (initial_messages theme)) as [[te|o] s1] eqn:H1.
  { rewrite (attempt_transport _ _ _ _ H1). discriminate. }
  destruct (parse_story (response_text_of o)) as [e|st0] eqn:H2.
  { destruct (invoke s1 (repair_messages (document_repair_prompt e)))
      as [r s2] eqn:H3.
    rewrite (attempt_parse_error _ _ _ _ _ _ _ H1 H2 H3).
    destruct r; discriminate. }
  destruct (root_error st0) as [ve|] eqn:H3.
  - destruct (invoke s1 (repair_messages (root_repair_prompt ve (response_text_of o))))
      as [[te|o2] s2] eqn:H4.
    + destruct (invoke s2 (repair_messages (document_repair_prompt te)))
        as [r3 s3] eqn:H5.
      rewrite (attempt_root_repair_transport _ _ _ _ _ _ _ _ _ _ H1 H2 H3 H4 H5).
      destruct r3; discriminate.
    + rewrite (attempt_root_repair _ _ _ _ _ _ _ _ H1 H2 H3 H4).
      destruct (validate_document (response_text_of o2)) as [e2|st2] eqn:H5;
        intros [= <- <-]. exists o2. exact H5.
  - rewrite (attempt_accept _ _ _ _ _ H1 H2 H3). intros [= <- <-].
    exists o. unfold validate_document. rewrite H2, H3. reflexivity.
Qed.

Lemma validate_document_root_ok (t : string) st :
  validate_document t = inr st -> root_error st = None.
Proof.
  unfold validate_document. destruct (parse_story t) as [e|st0]; [discriminate|].
  destruct (root_error st0) eqn:H; [discriminate|]. intros [= <-]. exact H.
Qed.

Lemma attempts_accept (theme : string) n : forall le (w : World) st w',
  attempts n theme le w = (Return st, w') ->
  exists o, validate_document (response_text_of o) = inr st.
Proof.
  induction n as [|n IH]; intros le w st w'.
  - cbn. discriminate.
  - rewrite attempts_S.
    destruct (attempt theme w) as [[[st0|le0]|e|] w0] eqn:Ha; try discriminate.
    + intros [= <- <-]. eapply attempt_break. exact Ha.
    + apply IH.
Qed.

(** C7 (as amended).  When the response of an attempt parses as a
    document, the root node is checked.  If the check passes the document
    is accepted at once.  If it fails, a document-level repair prompt is
    sent once, inline: it quotes the validation error and the whole
    response and closes with the format instructions of the whole story.
    Its answer is parsed as a whole document and root-checked again, and
    is either accepted or handed, with its error, to the next pass of the
    outer loop.  (Should that one repair call itself fail, the failure is
    handled like an unparsable response.)  Whatever document the loop
    accepts has a root that passes the check. *)
Theorem root_check_inline_repair (theme : string) (w : World) o s1 st :
  invoke (llm w) (initial_messages theme) = (inr o, s1) ->
  parse_story (response_text_of o) = inr st ->
  let w1 := invoked w (initial_messages theme) (inr o) s1 in
  match root_error st with
  | None => attempt theme w = (Return (Break st), w1)
  | Some ve =>
      let msgs := repair_messages (root_repair_prompt ve (response_text_of o)) in
      match invoke s1 msgs with
      | (inr o2, s2) =>
          attempt theme w =
            (Return (match validate_document (response_text_of o2) with
                     | inr st2 => Break st2
                     | inl e2 => Next (Some e2)
                     end),
             invoked w1 msgs (inr o2) s2)
      | (inl te, s2) =>
          let msgs' := repair_messages (document_repair_prompt te) in
          let '(r3, s3) := invoke s2 msgs' in
          attempt theme w =
            (match r3 with
             | inl te' => Raise te'
             | inr _ => Return (Next (Some te))
             end,
             invoked (invoked w1 msgs (inl te) s2) msgs' r3 s3)
      end
  end
  /\ (forall n le (w0 : World) st' w',
        attempts n theme le w0 = (Return st', w') -> root_error st' = None)
  /\ (forall ve response_text,
        exists a b c,
          root_repair_prompt ve response_text
          = (STORY_PROMPT ++ a ++ str ve ++ b ++ response_text ++ c
             ++ format_instructions)%string).
Proof.
  intros H1 H2 w1. split; [|split].
  3: { intros ve response_text. eexists _, _, _. reflexivity. }
  - destruct (root_error st) as [ve|] eqn:H3.
    + cbv zeta.
      destruct (invoke s1 (repair_messages (root_repair_prompt ve (response_text_of o))))
        as [[te|o2] s2] eqn:H4.
      * destruct (invoke s2 (repair_messages (document_repair_prompt te)))
          as [r3 s3] eqn:H5.
        exact (attempt_root_repair_transport _ _ _ _ _ _ _ _ _ _ H1 H2 H3 H4 H5).
      * exact (attempt_root_repair _ _ _ _ _ _ _ _ H1 H2 H3 H4).
    + exact (attempt_accept _ _ _ _ _ H1 H2 H3).
  - intros n le w0 st' w' Hacc.
    destruct (attempts_accept _ _ _ _ _ _ Hacc) as [o' Ho'].
    eapply validate_document_root_ok. exact Ho'.
Qed.

(** Whatever happens in an attempt, its first effect is a call with the
    initial messages, all its effects are calls to the model, and storage
    is not touched. *)
Lemma attempt_effects (theme : string) (w : World) :
  exists evs,
    log (snd (attempt theme w)) =
      log w ++ EvInvoke (initial_messages theme)
                        (fst (invoke (llm w) (initial_messages theme))) :: evs /\
    forallb is_invoke evs = true /\
    db (snd (attempt theme w)) = db w.
Proof.
  destruct (invoke (llm w) (initial_messages theme)) as [[te|o] s1] eqn:H1.
  { rewrite (attempt_transport _ _ _ _ H1). exists []. auto. }
  destruct (parse_story (response_text_of o)) as [e|st0] eqn:H2.
  { destruct (invoke s1 (repair_messages (document_repair_prompt e)))
      as [r s2] eqn:H3.
    rewrite (attempt_parse_error _ _ _ _ _ _ _ H1 H2 H3).
    eexists [_]. cbn. rewrite <- app_assoc. auto. }
  destruct (root_error st0) as [ve|] eqn:H3.
  - destruct (invoke s1 (repair_messages (root_repair_prompt ve (response_text_of o))))
      as [[te|o2] s2] eqn:H4.
    + destruct (invoke s2 (repair_messages (document_repair_prompt te)))
        as [r3 s3] eqn:H5.
      rewrite (attempt_root_repair_transport _ _ _ _ _ _ _ _ _ _ H1 H2 H3 H4 H5).
      eexists [_; _]. cbn. rewrite <- !app_assoc. auto.
    + rewrite (attempt_root_repair _ _ _ _ _ _ _ _ H1 H2 H3 H4).
      eexists [_]. cbn. rewrite <- app_assoc. auto.
  - rewrite (attempt_accept _ _ _ _ _ H1 H2 H3). exists []. auto.
Qed.

Lemma attempts_effects (theme : string) n : forall le (w : World),
  exists evs,
    log (snd (attempts n theme le w)) = log w ++ evs /\
    forallb is_invoke evs = true /\
    db (snd (attempts n theme le w)) = db w.
Proof.
  induction n as [|n IH]; intros le w.
  - exists []. cbn. rewrite app_nil_r. auto.
  - rewrite attempts_S.
    destruct (attempt_effects theme w) as (evs & Hlog & Hinv & Hdb).
    destruct (attempt theme w) as [[[st0|le0]|e|] w0] eqn:Ha; cbn [snd] in *;
      try (eexists; split; [exact Hlog|]; cbn; auto).
    destruct (IH le0 w0) as (evs' & Hlog' & Hinv' & Hdb').
    exists ((EvInvoke (initial_messages theme)
               (fst (invoke (llm w) (initial_messages theme))) :: evs) ++ evs').
    rewrite Hlog', Hlog, Hdb', Hdb, <- app_assoc. split; [reflexivity|].
    split; [|reflexivity]. cbn. rewrite forallb_app, Hinv, Hinv'. reflexivity.
Qed.

(** C2.  After an attempt whose response did not parse, and after the
    repair prompt built from its error has been sent and answered, the
    loop goes on from a state in which only the endpoint state and the log
    have changed (the answer to the repair prompt is parsed by nobody), and
    the next attempt opens with a call that carries the initial messages
    again, not the repair prompt. *)
Theorem next_attempt_uses_initial_messages (theme : string) (w : World)
    n le o s1 e r s2 :
  invoke (llm w) (initial_messages theme) = (inr o, s1) ->
  parse_story (response_text_of o) = inl e ->
  invoke s1 (repair_messages (document_repair_prompt e)) = (inr r, s2) ->
  let w2 := invoked (invoked w (initial_messages theme) (inr o) s1)
                    (repair_messages (document_repair_prompt e)) (inr r) s2 in
  attempts (S (S n)) theme le w = attempts (S n) theme (Some e) w2 /\
  exists evs,
    log (snd (attempts (S (S n)) theme le w)) =
      log w ++ EvInvoke (initial_messages theme) (inr o)
            :: EvInvoke (repair_messages (document_repair_prompt e)) (inr r)
            :: EvInvoke (initial_messages theme)
                        (fst (invoke s2 (initial_messages theme)))
            :: evs.
Proof.
  intros H1 H2 H3 w2.
  assert (Hstep : attempts (S (S n)) theme le w = attempts (S n) theme (Some e) w2).
  { rewrite (attempts_S (S n)).
    rewrite (attempt_parse_error _ _ _ _ _ _ _ H1 H2 H3). reflexivity. }
  split; [exact Hstep|].
  rewrite Hstep, attempts_S.
  destruct (attempt_effects theme w2) as (evs & Hlog & _ & _).
  assert (Hw2 : log w2 = log w ++ [EvInvoke (initial_messages theme) (inr o);
                 EvInvoke (repair_messages (document_repair_prompt e)) (inr r)]).
  { apply invoked_invoked_log. }
  destruct (attempt theme w2) as [[[st0|le0]|e0|] w0] eqn:Ha; cbn [snd] in *.
  1,3,4: exists evs; rewrite Hlog, Hw2, <- app_assoc; reflexivity.
  destruct (attempts_effects theme n le0 w0) as (evs' & Hlog' & _ & _).
  exists (evs ++ evs'). rewrite Hlog', Hlog, Hw2, <- !app_assoc. reflexivity.
Qed.

(** C6 (as amended).  A failure of the call that opens an attempt is not
    caught: whatever budget remains, the loop stops there and the
    exception of the client reaches the caller of [generate_story]; no
    repair prompt is built, no further call is made, storage is not
    touched. *)
Theorem transport_failure_aborts (theme : string) (w : World) te s1 :
  invoke (llm w) (initial_messages theme) = (inl te, s1) ->
  (forall n le,
     attempts (S n) theme le w =
       (Raise te, mkWorld s1 (db w)
                    (log w ++ [EvInvoke (initial_messages theme) (inl te)]))) /\
  (forall fuel session_id,
     generate_story fuel session_id theme w =
       (Raise te, mkWorld s1 (db w)
                    (log w ++ [EvInvoke (initial_messages theme) (inl te)]))).
Proof.
  intros H.
  assert (Hn : forall n le,
     attempts (S n) theme le w =
       (Raise te, mkWorld s1 (db w)
                    (log w ++ [EvInvoke (initial_messages theme) (inl te)]))).
  { intros n le. rewrite attempts_S, (attempt_transport _ _ _ _ H). reflexivity. }
  split; [exact Hn|].
  intros fuel session_id. apply generate_story_raise_in_loop. apply Hn.
Qed.

End AttemptFacts.

Lemma root_check_inline_repair_witness :
  @attempt Mock.scripted "pirates"
    (Mock.start [inr (AIMessage "<story: broken root>");
                 inr (AIMessage "<story: raw fork>")])
  = (Return (Break (mkStoryLLMResponse "The Road" (NodeDict Mock.fork_dict))),
     @mkWorld Mock.scripted [] Mock.empty_session
       [EvInvoke (@initial_messages Mock.scripted "pirates")
                 (inr (AIMessage "<story: broken root>"));
        EvInvoke (repair_messages
                    (@root_repair_prompt Mock.scripted
                       (ValidationError "Field required") "<story: broken root>"))
                 (inr (AIMessage "<story: raw fork>"))]).
Proof.
  exact (proj1 (@root_check_inline_repair Mock.scripted "pirates"
                  (Mock.start [inr (AIMessage "<story: broken root>");
                               inr (AIMessage "<story: raw fork>")])
                  (AIMessage "<story: broken root>")
                  [inr (AIMessage "<story: raw fork>")]
                  (mkStoryLLMResponse "The Road" (NodeDict Mock.broken_dict))
                  eq_refl eq_refl)).
Defined.

Lemma next_attempt_uses_initial_messages_witness :
  exists evs,
    log (snd (@attempts Mock.scripted 3 "pirates" None
                (Mock.start [inr (AIMessage "not json");
                             inr (AIMessage "<story: typed fork>");
                             inr (AIMessage "still not json")]))) =
      [EvInvoke (@initial_messages Mock.scripted "pirates") (inr (AIMessage "not json"));
       EvInvoke (repair_messages
                   (@document_repair_prompt Mock.scripted
                      (OutputParserException "Invalid json output: not json" None)))
                (inr (AIMessage "<story: typed fork>"));
       EvInvoke (@initial_messages Mock.scripted "pirates")
                (inr (AIMessage "still not json"))] ++ evs.
Proof.
  destruct (@next_attempt_uses_initial_messages Mock.scripted "pirates"
              (Mock.start [inr (AIMessage "not json");
                           inr (AIMessage "<story: typed fork>");
                           inr (AIMessage "still not json")])
              1 None (AIMessage "not json")
              [inr (AIMessage "<story: typed fork>"); inr (AIMessage "still not json")]
              (OutputParserException "Invalid json output: not json" None)
              (AIMessage "<story: typed fork>")
              [inr (AIMessage "still not json")]
              eq_refl eq_refl eq_refl) as [_ [evs Hevs]].
  exists evs. exact Hevs.
Defined.

Lemma transport_failure_aborts_witness :
  @generate_story Mock.scripted 5 "session-1" "pirates"
    (Mock.start [inl (TransportError "connection reset");
                 inr (AIMessage "<story: typed fork>")])
  = (Raise (TransportError "connection reset"),
     @mkWorld Mock.scripted [inr (AIMessage "<story: typed fork>")]
       Mock.empty_session
       [EvInvoke (@initial_messages Mock.scripted "pirates")
                 (inl (TransportError "connection reset"))]).
Proof.
  exact (proj2 (@transport_failure_aborts Mock.scripted "pirates"
                  (Mock.start [inl (TransportError "connection reset");
                               inr (AIMessage "<story: typed fork>")])
                  (TransportError "connection reset")
                  [inr (AIMessage "<story: typed fork>")] eq_refl)
               5 "session-1").
Defined.

(* ===================================================================== *)
(** ** The materializer: stored trees and the log *)
(* ===================================================================== *)

Section StoredFacts.
Context {C : Collaborators}.

(** A stored tree lives at the key of its root and above. *)
Lemma stored_keeps (tbl : gmap nat StoryNode.t) (sid : nat) is_root nd row :
  stored tbl sid is_root nd row ->
  forall tbl', keeps_from (StoryNode.id row) tbl tbl' ->
  stored tbl' sid is_root nd row.
Proof.
  intros H.
  induction H using stored_mut with
    (P0 := fun parent os ps =>
             forall tbl', keeps_from (S parent) tbl tbl' ->
             stored_options tbl' sid parent os ps).
  - intros tbl' Hk. apply stored_ending; auto.
  - intros tbl' Hk. apply stored_branching; auto.
    apply IHstored. intros k r Hle. apply Hk. lia.
  - intros tbl' Hk. constructor.
  - intros tbl' Hk. econstructor; eauto.
    apply IHstored. intros k r Hle. apply Hk. lia.
Qed.

Lemma stored_options_keeps (tbl : gmap nat StoryNode.t) (sid parent : nat) os ps :
  stored_options tbl sid parent os ps ->
  forall tbl', keeps_from (S parent) tbl tbl' ->
  stored_options tbl' sid parent os ps.
Proof.
  induction 1 as [|parent o os p ps child child_row Ht Hid Hlt Hres Hst Hrest IH];
    intros tbl' Hk.
  - constructor.
  - econstructor; eauto.
    eapply stored_keeps; [exact Hst|]. intros k r Hle. apply Hk. lia.
Qed.


Lemma stored_options_children (tbl : gmap nat StoryNode.t) (sid parent : nat) os ps :
  stored_options tbl sid parent os ps ->
  forall p, p ∈ ps ->
  exists child, tbl !! node_id p = Some child /\
                StoryNode.story_id child = sid /\ parent < node_id p.
Proof.
  induction 1 as [|parent o os p ps child child_row Ht Hid Hlt Hres Hst Hrest IH];
    intros q Hq.
  - inversion Hq.
  - apply elem_of_cons in Hq as [->|Hq]; [|auto].
    exists child_row. rewrite Hid.
    inversion Hst as [? ? ? Hl Hm|? ? ? Hl Hm]; subst;
      destruct Hm as (Hsid & _); auto.
Qed.

(** *** Facts about the log predicates *)

Lemma inserted_app (a b : list Event) : inserted (a ++ b) = inserted a ++ inserted b.
Proof.
  induction a as [|ev a IH]; [reflexivity|].
  destruct ev; cbn; rewrite ?IH; reflexivity.
Qed.

Lemma children_first_mono (evs : list Event) : forall seen seen',
  (forall k, k ∈ seen -> k ∈ seen') ->
  children_first seen evs = true -> children_first seen' evs = true.
Proof.
  induction evs as [|ev evs IH]; intros seen seen' Hsub; [reflexivity|].
  destruct ev; cbn; try (apply IH; exact Hsub).
  - apply IH. intros k. rewrite !elem_of_cons. intuition auto.
  - rewrite !andb_true_iff. intros [Hp Hrest]. split; [|eapply IH; eauto].
    rewrite forallb_forall in *. intros p Hin. specialize (Hp p Hin).
    apply bool_decide_eq_true in Hp. apply bool_decide_eq_true. auto.
Qed.

Lemma children_first_app (a b : list Event) : forall seen,
  children_first seen a = true ->
  children_first (inserted a ++ seen) b = true ->
  children_first seen (a ++ b) = true.
Proof.
  induction a as [|ev a IH]; intros seen Ha Hb; [exact Hb|].
  destruct ev; cbn in *; try (apply IH; assumption).
  - apply IH; [exact Ha|].
    eapply children_first_mono; [|exact Hb].
    intros k. rewrite !elem_of_cons, !elem_of_app, elem_of_cons. tauto.
  - apply andb_true_iff in Ha as [Hp Ha]. rewrite Hp. cbn. apply IH; assumption.
Qed.

Lemma children_first_invokes (evs : list Event) seen :
  forallb is_invoke evs = true -> children_first seen evs = true.
Proof.
  revert seen. induction evs as [|ev evs IH]; intros seen; [reflexivity|].
  destruct ev; cbn; try discriminate. apply IH.
Qed.

End StoredFacts.

(* ===================================================================== *)
(** ** The materializer: one call *)
(* ===================================================================== *)

Section MaterializerFacts.
Context {C : Collaborators}.

Lemma extends_refl (sid : nat) (w : World) : wf_session (db w) -> extends sid w w.
Proof.
  intros Hwf. constructor; auto.
  - intros k row Hle Hk. rewrite (Hwf k Hle) in Hk. discriminate.
  - exists []. rewrite app_nil_r. repeat split; auto. intros k Hk. exfalso. lia.
Qed.

Lemma wf_lookup_lt (s : Session) k row :
  wf_session s -> nodes s !! k = Some row -> k < next_node_id s.
Proof.
  intros Hwf Hk. destruct (decide (k < next_node_id s)) as [|Hge]; [assumption|].
  rewrite (Hwf k) in Hk by lia. discriminate.
Qed.

Lemma extends_trans (sid : nat) (w w1 w2 : World) :
  wf_session (db w1) ->
  extends sid w w1 -> extends sid w1 w2 -> extends sid w w2.
Proof.
  intros Hwf1 [_ Hn1 Hf1 Hs1 Hns1 Hcs1 Hcn1 Hnew1 (evs1 & Hl1 & Hc1 & Ho1 & Hi1)]
               [Hwf2 Hn2 Hf2 Hs2 Hns2 Hcs2 Hcn2 Hnew2 (evs2 & Hl2 & Hc2 & Ho2 & Hi2)].
  constructor; try congruence; try assumption.
  - lia.
  - intros k Hk. rewrite Hf2 by lia. apply Hf1. exact Hk.
  - intros k row Hle Hk.
    destruct (decide (next_node_id (db w1) <= k)) as [Hge|Hlt].
    { apply Hnew2; assumption. }
    rewrite Hf2 in Hk by lia.
    destruct (Hnew1 k row Hle Hk) as (Hid & Hsid & Hch).
    repeat split; auto. intros p Hp.
    destruct (Hch p Hp) as (child & Hchild & Hcs).
    exists child. split; [|exact Hcs].
    rewrite Hf2; [exact Hchild|]. eapply wf_lookup_lt; eassumption.
  - exists (evs1 ++ evs2). rewrite Hl2, Hl1, <- app_assoc.
    split; [reflexivity|]. split; [|split].
    + rewrite forallb_app, Hc1, Hc2. reflexivity.
    + apply children_first_app; [exact Ho1|].
      eapply children_first_mono; [|exact Ho2]. intros k Hk. inversion Hk.
    + intros k Hk. rewrite inserted_app, elem_of_app.
      destruct (decide (k < next_node_id (db w1))); [left; apply Hi1|right; apply Hi2]; lia.
Qed.

(** Calls to the model leave storage alone. *)
Lemma extends_invokes (sid : nat) (w w' : World) evs :
  wf_session (db w) ->
  db w' = db w -> log w' = log w ++ evs -> forallb is_invoke evs = true ->
  extends sid w w'.
Proof.
  intros Hwf Hdb Hlog Hinv.
  constructor; rewrite ?Hdb; auto.
  - intros k row Hle Hk. rewrite (Hwf k Hle) in Hk. discriminate.
  - exists evs. split; [exact Hlog|]. split; [|split].
    + clear Hlog. induction evs as [|ev evs IH]; [reflexivity|].
      destruct ev; cbn in *; try discriminate. auto.
    + apply children_first_invokes. exact Hinv.
    + intros k Hk. exfalso. lia.
Qed.

Lemma extends_added (sid : nat) (w : World) (nd : StoryNodeLLM) (is_root : bool) :
  wf_session (db w) ->
  extends sid w (added w (fresh_row w sid nd is_root)).
Proof.
  intros Hwf. constructor; cbn; auto.
  - unfold wf_session. cbn. intros k Hk.
    rewrite lookup_insert_ne by lia. apply Hwf. lia.
  - intros k Hk. apply lookup_insert_ne. lia.
  - intros k row Hle Hk.
    destruct (decide (k = next_node_id (db w))) as [->|Hne].
    + rewrite lookup_insert_eq in Hk. injection Hk as <-.
      repeat split. cbn. intros p Hp. inversion Hp.
    + rewrite lookup_insert_ne in Hk by lia. rewrite (Hwf k Hle) in Hk. discriminate.
  - exists [EvAddNode (fresh_row w sid nd is_root)].
    repeat split. intros k Hk. cbn. apply elem_of_cons. left. lia.
Qed.

Lemma db_add_node_eq (sid : nat) (nd : StoryNodeLLM) (is_root : bool) (w : World) :
  db_add_node sid (content nd) is_root (isEnding nd) (isWinningEnding nd) w =
    (Return (fresh_row w sid nd is_root), added w (fresh_row w sid nd is_root)).
Proof. reflexivity. Qed.

(** The body of [_process_story_node], one level unfolded. *)
Lemma process_story_node_S (fuel sid : nat) (nd : StoryNodeLLM) (is_root : bool)
    (w : World) :
  _process_story_node (S fuel) sid nd is_root w =
    let node := fresh_row w sid nd is_root in
    if isEnding nd then (Return node, added w node)
    else
      match process_options (fun child => _process_story_node fuel sid child false)
                            (options nd) [] (added w node) with
      | (Return payload, w2) => db_set_options node payload w2
      | (Raise e, w2) => (Raise e, w2)
      | (OutOfFuel, w2) => (OutOfFuel, w2)
      end.
Proof.
  cbn [_process_story_node]. unfold bind at 1. rewrite db_add_node_eq.
  cbn [StoryNode.is_ending fresh_row]. destruct (isEnding nd); reflexivity.
Qed.

(** Writing the options list of the row a call inserted first. *)
Lemma extends_set_options (sid : nat) (w w2 : World) (node : StoryNode.t) payload :
  extends sid w w2 ->
  next_node_id (db w) <= StoryNode.id node ->
  nodes (db w2) !! StoryNode.id node = Some node ->
  (forall p, p ∈ payload ->
     exists child, nodes (db w2) !! node_id p = Some child /\
                   StoryNode.story_id child = sid /\
                   StoryNode.id node < node_id p) ->
  extends sid w (snd (db_set_options node payload w2)).
Proof.
  intros [Hwf2 Hn Hf Hs Hns Hcs Hcn Hnew (evs & Hl & Hc & Ho & Hi)] Hge Hnode Hpay.
  pose proof (wf_lookup_lt _ _ _ Hwf2 Hnode) as Hlt.
  destruct (Hnew _ _ Hge Hnode) as (_ & Hsid & _).
  constructor; cbn; auto.
  - unfold wf_session. cbn. intros k Hk.
    rewrite lookup_insert_ne by lia. apply Hwf2. exact Hk.
  - intros k Hk. rewrite lookup_insert_ne by lia. apply Hf. exact Hk.
  - assert (Hkeep : forall q child, nodes (db w2) !! q = Some child ->
              StoryNode.story_id child = sid ->
              exists child', <[StoryNode.id node := StoryNode.with_options node payload]>
                               (nodes (db w2)) !! q = Some child' /\
                             StoryNode.story_id child' = sid).
    { intros q child Hq Hqs.
      destruct (decide (q = StoryNode.id node)) as [->|Hne].
      - rewrite lookup_insert_eq. eexists. split; [reflexivity|]. exact Hsid.
      - rewrite lookup_insert_ne by auto. eauto. }
    intros k row Hle Hk.
    destruct (decide (k = StoryNode.id node)) as [->|Hne].
    + rewrite lookup_insert_eq in Hk. injection Hk as <-.
      repeat split; auto. cbn. intros p Hp.
      destruct (Hpay p Hp) as (child & Hchild & Hcsid & _). eauto.
    + rewrite lookup_insert_ne in Hk by auto.
      destruct (Hnew k row Hle Hk) as (Hid & Hrsid & Hch).
      repeat split; auto. intros p Hp.
      destruct (Hch p Hp) as (child & Hchild & Hcsid). eauto.
  - exists (evs ++ [EvSetOptions (StoryNode.id node) payload]).
    rewrite Hl, <- app_assoc. split; [reflexivity|]. split; [|split].
    + rewrite forallb_app, Hc. reflexivity.
    + apply children_first_app; [exact Ho|]. cbn. rewrite andb_true_r.
      apply forallb_forall. intros p Hp. apply bool_decide_eq_true.
      apply list_elem_of_In in Hp.
      destruct (Hpay p Hp) as (child & Hchild & _ & Hgt).
      rewrite app_nil_r. apply Hi. split; [lia|].
      eapply wf_lookup_lt; eassumption.
    + intros k Hk. rewrite inserted_app, elem_of_app. left. apply Hi. exact Hk.
Qed.

(** *** Resolving the child of an option *)

Lemma resolve_typed (n : StoryNodeLLM) (w : World) :
  resolve_next_node (NodeObj n) w = (Return n, w).
Proof. reflexivity. Qed.

Lemma resolve_valid (d : RawDict) (n : StoryNodeLLM) (w : World) :
  model_validate d = inr n ->
  resolve_next_node (NodeDict d) w = (Return n, w).
Proof.
  intros H. cbn. unfold try_except, lift. rewrite H. reflexivity.
Qed.

Lemma resolve_repair (d : RawDict) (e : Exception) (w : World) r s1 :
  model_validate d = inl e ->
  invoke (llm w) (node_repair_messages d) = (r, s1) ->
  resolve_next_node (NodeDict d) w =
    (match r with
     | inl te => Raise te
     | inr raw_repair =>
         match parse_node (response_text_of raw_repair) with
         | inr n => Return n
         | inl repair_exc =>
             Raise (OutputParserException "Failed to repair invalid node JSON"
                                          (Some repair_exc))
         end
     end,
     invoked w (node_repair_messages d) r s1).
Proof.
  intros Hv Hi. cbn. unfold try_except at 1, lift at 1. rewrite Hv. cbn [raise].
  unfold bind. rewrite (llm_invoke_eq _ _ _ _ Hi).
  destruct r as [te|out]; [reflexivity|].
  unfold try_except, lift. destruct (parse_node (response_text_of out)); reflexivity.
Qed.

Lemma resolve_effects (next_node_data : NodeData) (w : World) :
  exists evs,
    db (snd (resolve_next_node next_node_data w)) = db w /\
    log (snd (resolve_next_node next_node_data w)) = log w ++ evs /\
    forallb is_invoke evs = true /\
    match fst (resolve_next_node next_node_data w) with
    | Return n => resolved next_node_data n
    | Raise _ => True
    | OutOfFuel => False
    end.
Proof.
  destruct next_node_data as [d|n].
  - destruct (model_validate d) as [e|n] eqn:Hv.
    + destruct (invoke (llm w) (node_repair_messages d)) as [r s1] eqn:Hi.
      rewrite (resolve_repair _ _ _ _ _ Hv Hi). eexists [_]. cbn [fst snd].
      repeat split.
      destruct r as [te|out]; [exact I|].
      destruct (parse_node (response_text_of out)) as [rexc|n] eqn:Hp; [exact I|].
      unfold resolved. rewrite Hv. eauto.
    + rewrite (resolve_valid _ _ _ Hv). exists []. cbn [fst snd].
      rewrite app_nil_r. repeat split. unfold resolved. rewrite Hv. reflexivity.
  - exists []. cbn. rewrite app_nil_r. repeat split.
Qed.

(** *** The loop over the options, then the call *)

Lemma process_options_materialized (sid parent : nat)
    (rec : StoryNodeLLM -> M StoryNode.t) :
  (forall child w out w',
     wf_session (db w) -> rec child w = (out, w') ->
     materialized sid false child w out w') ->
  forall opts options_payload (w : World) out w',
    wf_session (db w) ->
    parent < next_node_id (db w) ->
    process_options rec opts options_payload w = (out, w') ->
    extends sid w w' /\
    match out with
    | Return payload' =>
        exists new, payload' = options_payload ++ new /\
                    stored_options (nodes (db w')) sid parent opts new
    | _ => True
    end.
Proof.
  intros Hrec opts.
  induction opts as [|o rest IH]; intros payload w out w' Hwf Hlt Hrun.
  - cbn in Hrun. injection Hrun as <- <-. split; [apply extends_refl; exact Hwf|].
    exists []. rewrite app_nil_r. split; [reflexivity|constructor].
  - cbn [process_options] in Hrun. unfold bind at 1 in Hrun.
    destruct (resolve_effects (nextNode o) w) as (evs & Hdb & Hlog & Hinv & Hres).
    destruct (resolve_next_node (nextNode o) w) as [[child|e|] w1] eqn:Hresolve;
      cbn [fst snd] in *; try contradiction.
    2: { injection Hrun as <- <-. split; [|exact I].
         eapply extends_invokes; eassumption. }
    assert (Hext1 : extends sid w w1) by (eapply extends_invokes; eassumption).
    assert (Hwf1 : wf_session (db w1)) by (rewrite Hdb; exact Hwf).
    unfold bind at 1 in Hrun.
    destruct (rec child w1) as [[row|e|] w2] eqn:Hcall;
      destruct (Hrec _ _ _ _ Hwf1 Hcall) as (Hext2 & Hpost).
    2,3: injection Hrun as <- <-; split; [|exact I];
         eapply extends_trans; eassumption.
    destruct Hpost as (Hid & Hstored).
    pose proof (ext_wf _ _ _ Hext2) as Hwf2.
    assert (Hlt2 : parent < next_node_id (db w2)).
    { pose proof (ext_next _ _ _ Hext2). rewrite Hdb in *. lia. }
    destruct (IH _ _ _ _ Hwf2 Hlt2 Hrun) as (Hext3 & Hpost3).
    split.
    { eapply extends_trans; [exact Hwf1|exact Hext1|].
      eapply extends_trans; eassumption. }
    destruct out as [payload'| |]; try exact I.
    destruct Hpost3 as (new & -> & Hso).
    exists (mkOptionRow (text o) (StoryNode.id row) :: new).
    split; [rewrite <- app_assoc; reflexivity|].
    eapply stored_options_cons with (child := child) (child_row := row); auto.
    + rewrite Hid, Hdb. exact Hlt.
    + eapply stored_keeps; [exact Hstored|].
      intros k r Hle Hk. rewrite (ext_frame _ _ _ Hext3); [exact Hk|].
      eapply wf_lookup_lt; eassumption.
Qed.

Lemma process_story_node_materialized (fuel : nat) :
  forall (sid : nat) (nd : StoryNodeLLM) (is_root : bool) (w : World) out w',
    wf_session (db w) ->
    _process_story_node fuel sid nd is_root w = (out, w') ->
    materialized sid is_root nd w out w'.
Proof.
  induction fuel as [|fuel IH]; intros sid nd is_root w out w' Hwf Hrun.
  - cbn in Hrun. injection Hrun as <- <-. split; [apply extends_refl; exact Hwf|exact I].
  - rewrite process_story_node_S in Hrun. cbv zeta in Hrun.
    set (node := fresh_row w sid nd is_root) in *.
    pose proof (extends_added sid w nd is_root Hwf) as Hext1. fold node in Hext1.
    pose proof (ext_wf _ _ _ Hext1) as Hwf1.
    assert (Hnode1 : nodes (db (added w node)) !! StoryNode.id node = Some node).
    { cbn. apply lookup_insert_eq. }
    destruct (isEnding nd) eqn:Hend.
    + injection Hrun as <- <-. split; [exact Hext1|]. split; [reflexivity|].
      apply stored_ending; auto. repeat split; auto.
    + pose proof (process_options_materialized sid (StoryNode.id node) _
                    (fun child w0 out0 w0' Hw Hc => IH sid child false w0 out0 w0' Hw Hc)
                    (options nd) [] (added w node)) as Hspec.
      destruct (process_options (fun child => _process_story_node fuel sid child false)
                                (options nd) [] (added w node))
        as [[payload|e|] w2] eqn:Hloop;
        destruct (Hspec _ _ Hwf1 ltac:(cbn; lia) eq_refl) as (Hext2 & Hpost).
      2,3: injection Hrun as <- <-; split; [|exact I];
           exact (extends_trans sid w _ _ Hwf1 Hext1 Hext2).
      destruct Hpost as (new & Hnew & Hso).
      cbn [app] in Hnew. subst new.
      pose proof (ext_wf _ _ _ Hext2) as Hwf2.
      assert (Hnode2 : nodes (db w2) !! StoryNode.id node = Some node).
      { rewrite (ext_frame _ _ _ Hext2); [exact Hnode1|]. cbn. lia. }
      pose proof (extends_trans sid w _ _ Hwf1 Hext1 Hext2) as Hext.
      pose proof (extends_set_options sid w w2 node payload Hext
                    ltac:(cbn; lia) Hnode2
                    (stored_options_children _ _ _ _ _ Hso)) as Hext3.
      rewrite Hrun in Hext3. cbn [snd] in Hext3.
      split; [exact Hext3|].
      unfold db_set_options in Hrun. injection Hrun as <- <-.
      split; [reflexivity|].
      apply stored_branching; cbn; auto.
      * apply lookup_insert_eq.
      * repeat split; auto.
      * eapply stored_options_keeps; [exact Hso|].
        intros k r Hle Hk. rewrite lookup_insert_ne by (cbn; lia). exact Hk.
Qed.

End MaterializerFacts.

(* ===================================================================== *)
(** ** [generate_story] as a whole *)
(* ===================================================================== *)

Section GenerateFacts.
Context {C : Collaborators}.

(** [generate_story], phase by phase. *)
Lemma generate_story_unfold (fuel : nat) (session_id theme : string) (w : World) :
  generate_story fuel session_id theme w =
    match attempts MAX_RETRIES theme None w with
    | (Return st, w0) =>
        let story := Story.mk (next_story_id (db w0)) (title st) session_id in
        match root_of st with
        | inl e => (Raise e, story_added w0 story)
        | inr root =>
            match _process_story_node fuel (Story.id story) root true
                                      (story_added w0 story) with
            | (Return _, w2) => (Return story, committed w2)
            | (Raise e, w2) => (Raise e, w2)
            | (OutOfFuel, w2) => (OutOfFuel, w2)
            end
        end
    | (Raise e, w0) => (Raise e, w0)
    | (OutOfFuel, w0) => (OutOfFuel, w0)
    end.
Proof.
  unfold generate_story. unfold bind at 1.
  destruct (attempts MAX_RETRIES theme None w) as [[st|e|] w0]; try reflexivity.
  unfold bind at 1. cbn [db_add_story]. cbv zeta.
  fold (story_added w0 (Story.mk (next_story_id (db w0)) (title st) session_id)).
  unfold bind at 1, root_of.
  destruct (rootNode st) as [d|n].
  - unfold lift. destruct (model_validate d) as [e|root]; [reflexivity|].
    cbn [ret]. unfold bind.
    destruct (_process_story_node _ _ _ _ _) as [[node|e|] w2]; reflexivity.
  - cbn [ret]. unfold bind.
    destruct (_process_story_node _ _ _ _ _) as [[node|e|] w2]; reflexivity.
Qed.

(** The document handed to the materializer has passed the root check, so
    the second validation of a raw root (line 158) cannot fail. *)
Lemma root_of_accepted (st : StoryLLMResponse) :
  root_error st = None -> exists root, root_of st = inr root /\ resolved (rootNode st) root.
Proof.
  unfold root_error, root_of, resolved. destruct (rootNode st) as [d|n].
  - destruct (model_validate d) as [e|root]; [discriminate|]. eauto.
  - eauto.
Qed.

Lemma no_commit_invokes (evs : list Event) :
  forallb is_invoke evs = true -> no_commit evs = true.
Proof.
  unfold no_commit. induction evs as [|ev evs IH]; [reflexivity|].
  destruct ev; cbn; try discriminate. exact IH.
Qed.

Lemma no_commit_app (a b : list Event) :
  no_commit (a ++ b) = no_commit a && no_commit b.
Proof. apply forallb_app. Qed.

(** What the materializer does to a table free of dangling references
    leaves it free of them. *)
Lemma extends_no_dangling (sid : nat) (w w' : World) :
  wf_session (db w) -> no_dangling (nodes (db w)) ->
  extends sid w w' -> no_dangling (nodes (db w')).
Proof.
  intros Hwf Hnd Hext k row p Hk Hp.
  destruct (decide (k < next_node_id (db w))) as [Hlt|Hge].
  - rewrite (ext_frame _ _ _ Hext) in Hk by exact Hlt.
    destruct (Hnd k row p Hk Hp) as (child & Hchild & Hsid).
    exists child. split; [|exact Hsid].
    rewrite (ext_frame _ _ _ Hext); [exact Hchild|].
    eapply wf_lookup_lt; eassumption.
  - destruct (ext_new _ _ _ Hext k row ltac:(lia) Hk) as (_ & Hsid & Hch).
    destruct (Hch p Hp) as (child & Hchild & Hcs).
    exists child. split; [exact Hchild|congruence].
Qed.

(** Either the loop gave up (or the client failed) before storage was
    touched, or a document was accepted, its story row added, and its root
    handed to the materializer. *)
Lemma generate_story_phases (fuel : nat) (session_id theme : string)
    (w : World) out w' :
  wf_session (db w) ->
  generate_story fuel session_id theme w = (out, w') ->
  (exists evs0,
     (forall story, out <> Return story) /\
     db w' = db w /\ log w' = log w ++ evs0 /\ forallb is_invoke evs0 = true)
  \/
  (exists evs0 o st root w0 pout w2,
     validate_document (response_text_of o) = inr st /\
     resolved (rootNode st) root /\
     db w0 = db w /\ log w0 = log w ++ evs0 /\ forallb is_invoke evs0 = true /\
     let story := Story.mk (next_story_id (db w)) (title st) session_id in
     _process_story_node fuel (Story.id story) root true (story_added w0 story)
       = (pout, w2) /\
     materialized (Story.id story) true root (story_added w0 story) pout w2 /\
     (out, w') = match pout with
                 | Return _ => (Return story, committed w2)
                 | Raise e => (Raise e, w2)
                 | OutOfFuel => (OutOfFuel, w2)
                 end).
Proof.
  intros Hwf. rewrite generate_story_unfold.
  destruct (attempts_effects theme MAX_RETRIES None w) as (evs0 & Hlog0 & Hinv0 & Hdb0).
  destruct (attempts MAX_RETRIES theme None w) as [[st|e|] w0] eqn:Hloop;
    cbn [snd] in *.
  2,3: intros [= <- <-]; left; exists evs0; repeat split; auto; discriminate.
  destruct (attempts_accept _ _ _ _ _ _ Hloop) as (o & Hval).
  destruct (root_of_accepted st (validate_document_root_ok _ _ Hval))
    as (root & Hroot & Hres).
  rewrite Hroot. cbv zeta. rewrite Hdb0.
  set (story := Story.mk (next_story_id (db w)) (title st) session_id).
  assert (Hwf1 : wf_session (db (story_added w0 story))).
  { unfold wf_session. cbn. rewrite Hdb0. exact Hwf. }
  destruct (_process_story_node fuel (Story.id story) root true (story_added w0 story))
    as [pout w2] eqn:Hrun.
  pose proof (process_story_node_materialized _ _ _ _ _ _ _ Hwf1 Hrun) as Hmat.
  intros Hout. right. exists evs0, o, st, root, w0, pout, w2.
  split; [exact Hval|]. split; [exact Hres|]. split; [exact Hdb0|].
  split; [exact Hlog0|]. split; [exact Hinv0|]. cbv zeta. fold story.
  split; [exact Hrun|]. split; [exact Hmat|]. symmetry. exact Hout.
Qed.

(** C4.  Whatever the outcome of [generate_story] -- a story, the budget
    exhausted, a node repair that failed in the middle of the tree, a
    failing client -- every options list was written after the rows it
    names had been inserted, and neither the rows of the open transaction
    nor the committed rows contain an options entry whose [node_id] is not
    the key of a row of the same story. *)
Theorem no_dangling_child_reference (fuel : nat) (session_id theme : string)
    (w : World) out w' :
  wf_session (db w) ->
  no_dangling (nodes (db w)) ->
  no_dangling (committed_nodes (db w)) ->
  generate_story fuel session_id theme w = (out, w') ->
  no_dangling (nodes (db w')) /\
  no_dangling (committed_nodes (db w')) /\
  exists evs, log w' = log w ++ evs /\ children_first [] evs = true.
Proof.
  intros Hwf Hnd Hcnd Hrun.
  destruct (generate_story_phases _ _ _ _ _ _ Hwf Hrun)
    as [(evs0 & _ & Hdb & Hlog & Hinv)
       |(evs0 & o & st & root & w0 & pout & w2 & _ & _ & Hdb0 & Hlog0 & Hinv0 & Hrest)].
  - rewrite Hdb. split; [exact Hnd|]. split; [exact Hcnd|].
    exists evs0. split; [exact Hlog|]. apply children_first_invokes. exact Hinv.
  - cbv zeta in Hrest. destruct Hrest as (_ & (Hext & _) & Hout).
    set (story := Story.mk (next_story_id (db w)) (title st) session_id) in *.
    assert (Hwf1 : wf_session (db (story_added w0 story))).
    { unfold wf_session. cbn. rewrite Hdb0. exact Hwf. }
    assert (Hnd2 : no_dangling (nodes (db w2))).
    { eapply extends_no_dangling; [exact Hwf1| |exact Hext]. cbn. rewrite Hdb0. exact Hnd. }
    assert (Hc2 : committed_nodes (db w2) = committed_nodes (db w)).
    { rewrite (ext_committed_nodes _ _ _ Hext). cbn. rewrite Hdb0. reflexivity. }
    destruct (ext_log _ _ _ Hext) as (evs2 & Hlog2 & _ & Hord2 & _).
    assert (Hord : children_first [] (evs0 ++ EvAddStory story :: evs2) = true).
    { apply children_first_app; [apply children_first_invokes; exact Hinv0|].
      cbn. eapply children_first_mono; [|exact Hord2]. intros k Hk. inversion Hk. }
    assert (Hlog : log w2 = log w ++ evs0 ++ EvAddStory story :: evs2).
    { rewrite Hlog2. cbn. rewrite Hlog0, <- !app_assoc. reflexivity. }
    destruct pout; injection Hout as -> ->.
    + cbn. split; [exact Hnd2|]. split; [exact Hnd2|].
      exists ((evs0 ++ EvAddStory story :: evs2) ++ [EvCommit]).
      split; [rewrite Hlog, <- !app_assoc; reflexivity|].
      apply children_first_app; [exact Hord|reflexivity].
    + rewrite Hc2. eauto.
    + rewrite Hc2. eauto.
Qed.

(** C3.  [generate_story] commits everything or nothing.  When it returns
    a story, the one commit is its last effect: the committed tables are
    the tables of the transaction, they hold the story row and, under it,
    the rows of the whole tree of the accepted document.  In every other
    outcome no commit was made and the committed tables are what they
    were. *)
Theorem commit_all_or_nothing (fuel : nat) (session_id theme : string)
    (w : World) out w' :
  wf_session (db w) ->
  generate_story fuel session_id theme w = (out, w') ->
  exists evs, log w' = log w ++ evs /\
  match out with
  | Return story =>
      exists evs0 o st root root_row,
        evs = evs0 ++ [EvCommit] /\ no_commit evs0 = true /\
        committed_stories (db w') = stories (db w') /\
        committed_nodes (db w') = nodes (db w') /\
        committed_stories (db w') !! Story.id story = Some story /\
        validate_document (response_text_of o) = inr st /\
        Story.title story = title st /\
        Story.session_id story = session_id /\
        resolved (rootNode st) root /\
        stored (committed_nodes (db w')) (Story.id story) true root root_row
  | _ =>
      no_commit evs = true /\
      committed_stories (db w') = committed_stories (db w) /\
      committed_nodes (db w') = committed_nodes (db w)
  end.
Proof.
  intros Hwf Hrun.
  destruct (generate_story_phases _ _ _ _ _ _ Hwf Hrun)
    as [(evs0 & Hne & Hdb & Hlog & Hinv)
       |(evs0 & o & st & root & w0 & pout & w2 & Hval & Hres & Hdb0 & Hlog0 & Hinv0 & Hrest)].
  - exists evs0. split; [exact Hlog|]. rewrite Hdb.
    destruct out as [story| |]; [destruct (Hne story eq_refl)| |];
      (split; [apply no_commit_invokes; exact Hinv|split; reflexivity]).
  - cbv zeta in Hrest. destruct Hrest as (_ & (Hext & Hpost) & Hout).
    set (story := Story.mk (next_story_id (db w)) (title st) session_id) in *.
    destruct (ext_log _ _ _ Hext) as (evs2 & Hlog2 & Hnc2 & _ & _).
    assert (Hlog : log w2 = log w ++ evs0 ++ EvAddStory story :: evs2).
    { rewrite Hlog2. cbn. rewrite Hlog0, <- !app_assoc. reflexivity. }
    assert (Hnc : no_commit (evs0 ++ EvAddStory story :: evs2) = true).
    { rewrite no_commit_app, (no_commit_invokes _ Hinv0). exact Hnc2. }
    assert (Hcs : committed_stories (db w2) = committed_stories (db w)).
    { rewrite (ext_committed_stories _ _ _ Hext). cbn. rewrite Hdb0. reflexivity. }
    assert (Hcn : committed_nodes (db w2) = committed_nodes (db w)).
    { rewrite (ext_committed_nodes _ _ _ Hext). cbn. rewrite Hdb0. reflexivity. }
    destruct pout as [root_row|e|]; injection Hout as -> ->.
    + exists ((evs0 ++ EvAddStory story :: evs2) ++ [EvCommit]).
      split; [cbn; rewrite Hlog, <- !app_assoc; reflexivity|].
      exists (evs0 ++ EvAddStory story :: evs2), o, st, root, root_row.
      destruct Hpost as (_ & Hst). cbn.
      repeat split; auto.
      rewrite (ext_stories _ _ _ Hext). cbn. rewrite Hdb0. apply lookup_insert_eq.
    + exists (evs0 ++ EvAddStory story :: evs2). auto.
    + exists (evs0 ++ EvAddStory story :: evs2). auto.
Qed.

End GenerateFacts.

(* ===================================================================== *)
(** ** Typed trees: no validation, no repair, no shape check *)
(* ===================================================================== *)

Section TypedTrees.
Context {C : Collaborators}.

Lemma all_typed_option (nd : StoryNodeLLM) (o : StoryOptionLLM) :
  all_typed nd = true -> o ∈ options nd ->
  exists c, nextNode o = NodeObj c /\ all_typed c = true /\ height c < height nd.
Proof.
  destruct nd as [c0 e0 w0 opts]. cbn [options all_typed height].
  induction opts as [|[t [d|c]] opts IH]; intros Ht Hin.
  - inversion Hin.
  - discriminate.
  - apply andb_true_iff in Ht as [Hc Hrest].
    apply elem_of_cons in Hin as [->|Hin].
    + exists c. cbn. repeat split; auto. lia.
    + destruct (IH Hrest Hin) as (c' & Hn & Ht' & Hh).
      exists c'. repeat split; auto. lia.
Qed.

(** The loop over options whose children are typed trees of height at most
    [fuel]: it returns, having called nothing but storage. *)
Lemma process_options_typed (fuel sid : nat) :
  (forall nd is_root (w : World),
     all_typed nd = true -> height nd <= fuel ->
     exists node w',
       _process_story_node fuel sid nd is_root w = (Return node, w') /\
       llm w' = llm w /\
       exists evs, log w' = log w ++ evs /\ forallb is_write evs = true) ->
  forall opts options_payload (w : World),
    (forall o, o ∈ opts ->
       exists c, nextNode o = NodeObj c /\ all_typed c = true /\ height c <= fuel) ->
    exists payload' w',
      process_options (fun child => _process_story_node fuel sid child false)
                      opts options_payload w = (Return payload', w') /\
      length payload' = length options_payload + length opts /\
      llm w' = llm w /\
      exists evs, log w' = log w ++ evs /\ forallb is_write evs = true.
Proof.
  intros Hrec opts. induction opts as [|o rest IH]; intros payload w Hopts.
  - exists payload, w. cbn. repeat split; auto.
    exists []. rewrite app_nil_r. auto.
  - destruct (Hopts o) as (c & Hn & Ht & Hh); [apply elem_of_cons; auto|].
    cbn [process_options]. unfold bind at 1. rewrite Hn, resolve_typed.
    unfold bind at 1.
    destruct (Hrec c false w Ht Hh) as (row & w1 & Hcall & Hllm1 & evs1 & Hlog1 & Hw1).
    rewrite Hcall.
    destruct (IH (payload ++ [mkOptionRow (text o) (StoryNode.id row)]) w1)
      as (payload' & w' & Hloop & Hlen & Hllm & evs2 & Hlog2 & Hw2).
    { intros o' Hin. apply Hopts. apply elem_of_cons. auto. }
    exists payload', w'. split; [exact Hloop|]. split; [|split].
    + rewrite Hlen, length_app. cbn. lia.
    + congruence.
    + exists (evs1 ++ evs2). rewrite Hlog2, Hlog1, <- app_assoc.
      split; [reflexivity|]. rewrite forallb_app, Hw1, Hw2. reflexivity.
Qed.

(** A tree of typed objects is materialized, given fuel for its height,
    without a single call to the model and whatever its shape. *)
Lemma typed_tree_materializes (fuel : nat) :
  forall (sid : nat) (nd : StoryNodeLLM) (is_root : bool) (w : World),
    all_typed nd = true -> height nd <= fuel ->
    exists node w',
      _process_story_node fuel sid nd is_root w = (Return node, w') /\
      llm w' = llm w /\
      length (StoryNode.options node)
        = (if isEnding nd then 0 else length (options nd)) /\
      exists evs,
        log w' = log w ++ EvAddNode (fresh_row w sid nd is_root) :: evs /\
        forallb is_write evs = true.
Proof.
  induction fuel as [|fuel IH]; intros sid nd is_root w Ht Hh.
  - destruct nd. cbn in Hh. lia.
  - rewrite process_story_node_S. cbv zeta.
    destruct (isEnding nd) eqn:Hend.
    + eexists _, _. split; [reflexivity|]. cbn. repeat split; auto.
      exists []. auto.
    + destruct (process_options_typed fuel sid) with
        (opts := options nd) (options_payload := @nil OptionRow)
        (w := added w (fresh_row w sid nd is_root))
        as (payload & w2 & Hloop & Hlen & Hllm & evs & Hlog & Hw).
      { intros nd' r' w0 Ht' Hh'.
        destruct (IH sid nd' r' w0 Ht' Hh') as (node & w' & Hrun & Hl & _ & evs & Hlog & Hw).
        exists node, w'. split; [exact Hrun|]. split; [exact Hl|].
        exists (EvAddNode (fresh_row w0 sid nd' r') :: evs). auto. }
      { intros o Hin. destruct (all_typed_option nd o Ht Hin) as (c & Hn & Hc & Hlt).
        exists c. repeat split; auto. lia. }
      rewrite Hloop. eexists _, _. split; [reflexivity|]. cbn.
      split; [exact Hllm|]. split; [cbn in Hlen; exact Hlen|].
      exists (evs ++ [EvSetOptions (next_node_id (db w)) payload]).
      rewrite Hlog. cbn. rewrite <- !app_assoc. split; [reflexivity|].
      rewrite forallb_app, Hw. reflexivity.
Qed.

End TypedTrees.

(* ===================================================================== *)
(** ** Node repair, typed children, tree shape *)
(* ===================================================================== *)

Section NodeRepair.
Context {C : Collaborators}.

Lemma process_options_app (rec : StoryNodeLLM -> M StoryNode.t)
    (pre rest : list StoryOptionLLM) : forall payload (w : World) payload1 w1,
  process_options rec pre payload w = (Return payload1, w1) ->
  process_options rec (pre ++ rest) payload w = process_options rec rest payload1 w1.
Proof.
  induction pre as [|o pre IH]; intros payload w payload1 w1 H.
  - cbn in H. injection H as <- <-. reflexivity.
  - cbn [app process_options] in *. unfold bind at 1 in H. unfold bind at 1.
    destruct (resolve_next_node (nextNode o) w) as [[child|e|] wa]; try discriminate.
    unfold bind at 1 in H. unfold bind at 1.
    destruct (rec child wa) as [[row|e|] wb]; try discriminate.
    apply IH. exact H.
Qed.

(** An exception raised while resolving the child of an option leaves the
    enclosing call as it is: the rest of the options is skipped and the
    options list of the parent is not written. *)
Lemma resolve_raise_aborts (fuel sid : nat) (nd : StoryNodeLLM) (is_root : bool)
    (w0 : World) pre o post payload wa exc wb :
  isEnding nd = false ->
  options nd = pre ++ o :: post ->
  process_options (fun c => _process_story_node fuel sid c false) pre []
                  (added w0 (fresh_row w0 sid nd is_root)) = (Return payload, wa) ->
  resolve_next_node (nextNode o) wa = (Raise exc, wb) ->
  _process_story_node (S fuel) sid nd is_root w0 = (Raise exc, wb).
Proof.
  intros Hend Hopts Hpre Hres.
  rewrite process_story_node_S, Hend, Hopts. cbv zeta.
  rewrite (process_options_app _ _ _ _ _ _ _ Hpre).
  cbn [process_options]. unfold bind at 1. rewrite Hres. reflexivity.
Qed.

(** The same for an exception raised by the materialization of a child. *)
Lemma child_raise_aborts (fuel sid : nat) (nd : StoryNodeLLM) (is_root : bool)
    (w0 : World) pre o post payload wa child wb exc wc :
  isEnding nd = false ->
  options nd = pre ++ o :: post ->
  process_options (fun c => _process_story_node fuel sid c false) pre []
                  (added w0 (fresh_row w0 sid nd is_root)) = (Return payload, wa) ->
  resolve_next_node (nextNode o) wa = (Return child, wb) ->
  _process_story_node fuel sid child false wb = (Raise exc, wc) ->
  _process_story_node (S fuel) sid nd is_root w0 = (Raise exc, wc).
Proof.
  intros Hend Hopts Hpre Hres Hchild.
  rewrite process_story_node_S, Hend, Hopts. cbv zeta.
  rewrite (process_options_app _ _ _ _ _ _ _ Hpre).
  cbn [process_options]. unfold bind at 1. rewrite Hres.
  unfold bind at 1. rewrite Hchild. reflexivity.
Qed.

(** And [generate_story] hands the exception of the materializer on. *)
Lemma materializer_raise_surfaces (fuel : nat) (session_id theme : string)
    (w0 : World) st wa root exc wc :
  attempts MAX_RETRIES theme None w0 = (Return st, wa) ->
  root_of st = inr root ->
  _process_story_node fuel (next_story_id (db wa)) root true
    (story_added wa (Story.mk (next_story_id (db wa)) (title st) session_id))
    = (Raise exc, wc) ->
  generate_story fuel session_id theme w0 = (Raise exc, wc).
Proof.
  intros Hloop Hroot Hrun.
  rewrite generate_story_unfold, Hloop, Hroot. cbv zeta. cbn [Story.id].
  rewrite Hrun. reflexivity.
Qed.

(** C5.  An embedded child that is a raw mapping and fails validation gets
    one repair: one call to the model with the node-repair messages and one
    parse of the answer.  If the answer parses, the materializer goes on
    with the parsed node.  If it does not (or if the call itself fails)
    the exception -- "Failed to repair invalid node JSON", carrying the
    parser's error -- is raised with no second repair call; the enclosing
    materialize call ends with that exception, so does every call above it,
    and so does [generate_story]. *)
Theorem node_repair_single_attempt (d : RawDict) (e : Exception) (w : World) r s1 :
  model_validate d = inl e ->
  invoke (llm w) (node_repair_messages d) = (r, s1) ->
  let w1 := invoked w (node_repair_messages d) r s1 in
  let out :=
    match r with
    | inl te => Raise te
    | inr raw_repair =>
        match parse_node (response_text_of raw_repair) with
        | inr n => Return n
        | inl repair_exc =>
            Raise (OutputParserException "Failed to repair invalid node JSON"
                                         (Some repair_exc))
        end
    end in
  resolve_next_node (NodeDict d) w = (out, w1) /\
  (forall exc, out = Raise exc ->
     forall fuel sid nd is_root (w0 : World) pre txt post payload,
       isEnding nd = false ->
       options nd = pre ++ mkStoryOptionLLM txt (NodeDict d) :: post ->
       process_options (fun c => _process_story_node fuel sid c false) pre []
                       (added w0 (fresh_row w0 sid nd is_root)) = (Return payload, w) ->
       _process_story_node (S fuel) sid nd is_root w0 = (Raise exc, w1)) /\
  (forall exc fuel sid nd is_root (w0 : World) pre o post payload wa child wb wc,
       isEnding nd = false ->
       options nd = pre ++ o :: post ->
       process_options (fun c => _process_story_node fuel sid c false) pre []
                       (added w0 (fresh_row w0 sid nd is_root)) = (Return payload, wa) ->
       resolve_next_node (nextNode o) wa = (Return child, wb) ->
       _process_story_node fuel sid child false wb = (Raise exc, wc) ->
       _process_story_node (S fuel) sid nd is_root w0 = (Raise exc, wc)) /\
  (forall exc fuel session_id theme (w0 : World) st wa root wc,
       attempts MAX_RETRIES theme None w0 = (Return st, wa) ->
       root_of st = inr root ->
       _process_story_node fuel (next_story_id (db wa)) root true
         (story_added wa (Story.mk (next_story_id (db wa)) (title st) session_id))
         = (Raise exc, wc) ->
       generate_story fuel session_id theme w0 = (Raise exc, wc)).
Proof.
  intros Hv Hi w1 out.
  assert (Hres : resolve_next_node (NodeDict d) w = (out, w1)).
  { exact (resolve_repair _ _ _ _ _ Hv Hi). }
  split; [exact Hres|]. split; [|split].
  - intros exc Hout fuel sid nd is_root w0 pre txt post payload Hend Hopts Hpre.
    eapply resolve_raise_aborts; eauto. cbn [nextNode]. rewrite Hres, Hout. reflexivity.
  - intros. eapply child_raise_aborts; eauto.
  - intros. eapply materializer_raise_surfaces; eauto.
Qed.

(** The first effect of a materialize call is the insert of the row of its
    node. *)
Lemma first_effect_is_insert (fuel sid : nat) (nd : StoryNodeLLM) (is_root : bool)
    (w : World) :
  wf_session (db w) ->
  exists evs,
    log (snd (_process_story_node (S fuel) sid nd is_root w)) =
      log w ++ EvAddNode (fresh_row w sid nd is_root) :: evs.
Proof.
  intros Hwf. rewrite process_story_node_S. cbv zeta.
  destruct (isEnding nd); [exists []; reflexivity|].
  pose proof (ext_wf _ _ _ (extends_added sid w nd is_root Hwf)) as Hwf1.
  destruct (process_options _ (options nd) [] (added w (fresh_row w sid nd is_root)))
    as [out w2] eqn:Hloop.
  destruct (process_options_materialized sid (next_node_id (db w)) _
              (fun child w0 out0 w0' Hw Hc =>
                 process_story_node_materialized fuel sid child false w0 out0 w0' Hw Hc)
              _ _ _ _ _ Hwf1 ltac:(cbn; lia) Hloop) as (Hext & _).
  destruct (ext_log _ _ _ Hext) as (evs & Hlog & _).
  destruct out as [payload|e|]; cbn [snd db_set_options log].
  - exists (evs ++ [EvSetOptions (next_node_id (db w)) payload]).
    rewrite Hlog. cbn. rewrite <- !app_assoc. reflexivity.
  - exists evs. rewrite Hlog. cbn. rewrite <- !app_assoc. reflexivity.
  - exists evs. rewrite Hlog. cbn. rewrite <- !app_assoc. reflexivity.
Qed.

(** C9 (as amended).  The materializer checks no option count.  A tree of
    typed objects is materialized, whatever the number of options of its
    nodes: the row of an ending has no stored options (options the ending
    may carry are ignored), the row of any other node has one stored pair
    per option.  And in every materialize call the row of the node is
    inserted first, before its options are looked at. *)
Theorem materializer_checks_no_shape (fuel sid : nat) (nd : StoryNodeLLM)
    (is_root : bool) (w : World) :
  wf_session (db w) ->
  all_typed nd = true ->
  height nd <= fuel ->
  (exists node w',
     _process_story_node fuel sid nd is_root w = (Return node, w') /\
     length (StoryNode.options node)
       = (if isEnding nd then 0 else length (options nd))) /\
  (forall fuel' nd' is_root',
     exists evs,
       log (snd (_process_story_node (S fuel') sid nd' is_root' w)) =
         log w ++ EvAddNode (fresh_row w sid nd' is_root') :: evs).
Proof.
  intros Hwf Ht Hh. split.
  - destruct (typed_tree_materializes fuel sid nd is_root w Ht Hh)
      as (node & w' & Hrun & _ & Hlen & _).
    exists node, w'. auto.
  - intros fuel' nd' is_root'. apply first_effect_is_insert. exact Hwf.
Qed.

(** C10.  A typed child is handed to the materializer as it is: resolving
    it calls neither the validator nor the model.  A typed root passes the
    root check and is handed on as it is.  So a tree of typed objects is
    materialized with no call to the model at all, whatever the validator
    would say about it. *)
Theorem typed_nodes_bypass_validation (fuel sid : nat) (nd : StoryNodeLLM)
    (is_root : bool) (w : World) :
  all_typed nd = true ->
  height nd <= fuel ->
  (exists node w',
     _process_story_node fuel sid nd is_root w = (Return node, w') /\
     llm w' = llm w /\
     exists evs, log w' = log w ++ evs /\ forallb is_write evs = true) /\
  (forall n (w0 : World), resolve_next_node (NodeObj n) w0 = (Return n, w0)) /\
  (forall t n (w0 : World),
     root_node_check (mkStoryLLMResponse t (NodeObj n)) w0 = (Return tt, w0)) /\
  (forall t n, root_of (mkStoryLLMResponse t (NodeObj n)) = inr n).
Proof.
  intros Ht Hh. split; [|repeat split].
  destruct (typed_tree_materializes fuel sid nd is_root w Ht Hh)
    as (node & w' & Hrun & Hllm & _ & evs & Hlog & Hw).
  exists node, w'. split; [exact Hrun|]. split; [exact Hllm|].
  exists (EvAddNode (fresh_row w sid nd is_root) :: evs). auto.
Qed.

End NodeRepair.

(* ===================================================================== *)
(** ** Fuel *)
(* ===================================================================== *)

Section Fuel.
Context {C : Collaborators}.

Lemma process_options_agree (rec1 rec2 : StoryNodeLLM -> M StoryNode.t) :
  (forall child (w : World) out w',
     rec1 child w = (out, w') -> out <> OutOfFuel -> rec2 child w = (out, w')) ->
  forall opts payload (w : World) out w',
    process_options rec1 opts payload w = (out, w') -> out <> OutOfFuel ->
    process_options rec2 opts payload w = (out, w').
Proof.
  intros Hrec opts. induction opts as [|o rest IH]; intros payload w out w' Hrun Hne.
  - exact Hrun.
  - cbn [process_options] in *. unfold bind at 1 in Hrun. unfold bind at 1.
    destruct (resolve_next_node (nextNode o) w) as [[child|e|] wa]; try exact Hrun.
    unfold bind at 1 in Hrun. unfold bind at 1.
    destruct (rec1 child wa) as [[row|e|] wb] eqn:Hcall.
    + rewrite (Hrec _ _ _ _ Hcall ltac:(discriminate)). apply IH; assumption.
    + rewrite (Hrec _ _ _ _ Hcall ltac:(discriminate)). exact Hrun.
    + injection Hrun as <- <-. contradiction.
Qed.

(** The fuel only bounds the depth of the recursion: a call that ends by
    returning or raising ends the same way with any larger fuel. *)
Lemma process_story_node_fuel_mono (fuel : nat) :
  forall fuel' sid nd is_root (w : World) out w',
    fuel <= fuel' ->
    _process_story_node fuel sid nd is_root w = (out, w') -> out <> OutOfFuel ->
    _process_story_node fuel' sid nd is_root w = (out, w').
Proof.
  induction fuel as [|fuel IH]; intros fuel' sid nd is_root w out w' Hle Hrun Hne.
  - cbn in Hrun. injection Hrun as <- <-. contradiction.
  - destruct fuel' as [|fuel']; [lia|].
    rewrite process_story_node_S in *. cbv zeta in *.
    destruct (isEnding nd); [exact Hrun|].
    destruct (process_options (fun child => _process_story_node fuel sid child false)
                (options nd) [] _) as [pout w2] eqn:Hloop.
    assert (Hpne : pout <> OutOfFuel).
    { intros ->. injection Hrun as <- <-. contradiction. }
    rewrite (process_options_agree _
               (fun child => _process_story_node fuel' sid child false)
               (fun child w0 out0 w0' Hc Hn => IH fuel' sid child false w0 out0 w0'
                                                 ltac:(lia) Hc Hn)
               _ _ _ _ _ Hloop Hpne).
    exact Hrun.
Qed.

End Fuel.

(* ===================================================================== *)
(** ** The theorems at work on concrete runs *)
(* ===================================================================== *)

Lemma empty_session_wf : wf_session Mock.empty_session.
Proof. intros k _. apply lookup_empty. Qed.

Lemma empty_no_dangling : no_dangling (∅ : gmap nat StoryNode.t).
Proof. intros k row p Hk. rewrite lookup_empty in Hk. discriminate. Qed.

(** A well-formed two-level story: one story row and three node rows are
    committed, the root naming its two endings in the order of the
    options. *)
Example fork_run_result :
  fst Mock.fork_run = Return Mock.story_row /\
  committed_nodes (db (snd Mock.fork_run)) !! 1 = Some Mock.fork_row /\
  size (committed_nodes (db (snd Mock.fork_run))) = 3 /\
  (StoryNode.is_winning_ending <$> committed_nodes (db (snd Mock.fork_run)) !! 2) = Some true /\
  (StoryNode.is_winning_ending <$> committed_nodes (db (snd Mock.fork_run)) !! 3) = Some false.
Proof. vm_compute. repeat split. Qed.

(** A child without [isEnding] whose repair fails: one repair call, the
    exception reaches the caller, nothing is committed. *)
Example cracked_run_result :
  fst Mock.cracked_run = Raise Mock.repair_failed /\
  length (filter (fun ev => is_invoke ev = true) (log (snd Mock.cracked_run))) = 2 /\
  committed_stories (db (snd Mock.cracked_run)) = ∅ /\
  committed_nodes (db (snd Mock.cracked_run)) = ∅.
Proof. vm_compute. repeat split. Qed.

Lemma commit_all_or_nothing_witness :
  committed_nodes (db (snd Mock.fork_run)) = nodes (db (snd Mock.fork_run)) /\
  committed_stories (db (snd Mock.fork_run)) !! 1 = Some Mock.story_row.
Proof.
  destruct (@commit_all_or_nothing Mock.scripted 3 "session-1" "pirates"
              (Mock.start [inr (AIMessage "<story: typed fork>")])
              (Return Mock.story_row) (snd Mock.fork_run)
              empty_session_wf ltac:(vm_compute; reflexivity))
    as (evs & _ & evs0 & o & st & root & root_row & _ & _ & _ & Hcn & Hcs & _).
  split; [exact Hcn|exact Hcs].
Defined.

Lemma no_dangling_child_reference_witness :
  no_dangling (nodes (db (snd Mock.cracked_run))) /\
  no_dangling (committed_nodes (db (snd Mock.cracked_run))) /\
  exists evs,
    log (snd Mock.cracked_run)
      = log (Mock.start [inr (AIMessage "<story: cracked>"); inr (AIMessage "garbage")])
        ++ evs /\
    children_first [] evs = true.
Proof.
  apply (@no_dangling_child_reference Mock.scripted 3 "session-1" "pirates"
           (Mock.start [inr (AIMessage "<story: cracked>"); inr (AIMessage "garbage")])
           (Raise Mock.repair_failed) (snd Mock.cracked_run)
           empty_session_wf empty_no_dangling empty_no_dangling).
  vm_compute. reflexivity.
Defined.

Lemma node_repair_single_attempt_witness :
  @resolve_next_node Mock.scripted (NodeDict Mock.broken_dict)
    (Mock.start [inr (AIMessage "garbage"); inr (AIMessage "<node: lose>")])
  = (Raise Mock.repair_failed,
     @mkWorld Mock.scripted [inr (AIMessage "<node: lose>")] Mock.empty_session
       [EvInvoke (@node_repair_messages Mock.scripted Mock.broken_dict)
                 (inr (AIMessage "garbage"))]).
Proof.
  exact (proj1 (@node_repair_single_attempt Mock.scripted Mock.broken_dict
                  (ValidationError "Field required")
                  (Mock.start [inr (AIMessage "garbage"); inr (AIMessage "<node: lose>")])
                  (inr (AIMessage "garbage")) [inr (AIMessage "<node: lose>")]
                  eq_refl eq_refl)).
Defined.

Lemma materializer_checks_no_shape_witness :
  shape_ok Mock.corridor = false /\
  exists node w',
    @_process_story_node Mock.scripted 2 1 Mock.corridor true (Mock.start [])
      = (Return node, w') /\
    length (StoryNode.options node) = 1.
Proof.
  split; [reflexivity|].
  exact (proj1 (@materializer_checks_no_shape Mock.scripted 2 1 Mock.corridor true
                  (Mock.start []) empty_session_wf eq_refl
                  ltac:(vm_compute; lia))).
Defined.

Lemma typed_nodes_bypass_validation_witness :
  exists node w',
    @_process_story_node Mock.scripted 2 1 Mock.fork true (Mock.start [])
      = (Return node, w') /\
    llm w' = llm (Mock.start []) /\
    exists evs, log w' = log (Mock.start []) ++ evs /\ forallb is_write evs = true.
Proof.
  exact (proj1 (@typed_nodes_bypass_validation Mock.scripted 2 1 Mock.fork true
                  (Mock.start []) eq_refl ltac:(vm_compute; lia))).
Defined.

(** C6, as the specification states it, fails: the client fails once and
    the loop does not go on to a second attempt, although a good answer
    was waiting. *)
Lemma transport_failure_not_counted : ~ transport_failure_counted_against_budget.
Proof.
  intros H.
  destruct (H Mock.scripted "session-1" "pirates" Mock.blinking_start
              (TransportError "connection reset")
              [inr (AIMessage "<story: typed fork>")] eq_refl)
    as (fuel & messages & r & evs & Hlog).
  rewrite (@generate_story_raise_in_loop Mock.scripted fuel "session-1" "pirates"
             Mock.blinking_start (TransportError "connection reset")
             (invoked Mock.blinking_start (@initial_messages Mock.scripted "pirates")
                      (inl (TransportError "connection reset"))
                      [inr (AIMessage "<story: typed fork>")]))
    in Hlog by reflexivity.
  cbn [snd log invoked Mock.blinking_start Mock.start app] in Hlog.
  discriminate Hlog.
Qed.

(** C7, as the specification states it, fails: the root of the first
    answer lacks [isEnding]; the answer to the repair prompt is a valid
    node, the corrected root; it is parsed as a whole document, rejected,
    and the attempt goes on to the next pass of the outer loop. *)
Lemma root_repair_is_document_level : ~ root_repaired_at_node_level.
Proof.
  intros H.
  destruct (H Mock.scripted "pirates"
              (Mock.start [inr (AIMessage "<story: broken root>");
                           inr (AIMessage "<node: win>")])
              (AIMessage "<story: broken root>") [inr (AIMessage "<node: win>")]
              (mkStoryLLMResponse "The Road" (NodeDict Mock.broken_dict))
              (ValidationError "Field required")
              (AIMessage "<node: win>") [] Mock.win
              eq_refl eq_refl eq_refl eq_refl eq_refl)
    as (st' & w' & Hrun).
  vm_compute in Hrun. discriminate Hrun.
Qed.

(** C9, as the specification states it, fails: a non-ending node with one
    option is materialized, not rejected, whatever the fuel. *)
Lemma shape_not_rejected : ~ shape_rejected_before_storage.
Proof.
  intros H.
  destruct (H Mock.scripted 1 Mock.corridor true (Mock.start []) eq_refl)
    as (fuel & e & w' & Hrun & _).
  destruct fuel as [|[|fuel]]; [discriminate Hrun|discriminate Hrun|].
  destruct (@typed_tree_materializes Mock.scripted (S (S fuel)) 1 Mock.corridor true
              (Mock.start []) eq_refl ltac:(cbn; lia))
    as (node & w'' & Hret & _).
  rewrite Hret in Hrun. discriminate Hrun.
Qed.

(** So is the corridor whose child arrives as a raw mapping. *)
Example raw_corridor_materialized :
  fst (@_process_story_node Mock.scripted 2 1 Mock.raw_corridor true (Mock.start []))
  = Return (StoryNode.mk 1 1 "A long corridor." true false false
              [mkOptionRow "Walk on" 2]).
Proof. reflexivity. Qed.

(** An ending that carries an option is materialized too; the option is
    dropped. *)
Example loud_ending_materialized :
  fst (@_process_story_node Mock.scripted 2 1 Mock.loud_ending true (Mock.start []))
  = Return (StoryNode.mk 1 1 "The end." true true false []).
Proof. reflexivity. Qed.

(* ===================================================================== *)
(** ** More about the repair loop *)
(* ===================================================================== *)

Section LoopAccounting.
Context {C : Collaborators}.

Lemma prefix_append (s t : string) : String.prefix s (s ++ t)%string = true.
Proof.
  induction s as [|a s IH]; [destruct t; reflexivity|].
  change (String a s ++ t)%string with (String a (s ++ t)%string).
  cbn [String.prefix].
  destruct (Ascii.ascii_dec a a) as [_|Hne]; [exact IH|contradiction].
Qed.

Lemma initial_messages_well_formed (theme : string) :
  well_formed_call (initial_messages theme).
Proof.
  eexists _, _. split; [reflexivity|]. unfold full_system_prompt. apply prefix_append.
Qed.

Lemma root_repair_well_formed (ve : Exception) (t : string) :
  well_formed_call (repair_messages (root_repair_prompt ve t)).
Proof.
  eexists _, _. split; [reflexivity|]. unfold root_repair_prompt. apply prefix_append.
Qed.

Lemma document_repair_well_formed (e : Exception) :
  well_formed_call (repair_messages (document_repair_prompt e)).
Proof.
  eexists _, _. split; [reflexivity|]. unfold document_repair_prompt. apply prefix_append.
Qed.

Lemma node_repair_well_formed (d : RawDict) :
  well_formed_call (node_repair_messages d).
Proof.
  eexists _, _. split; [reflexivity|]. unfold node_repair_prompt. apply prefix_append.
Qed.

(** Everything one pass of the loop body can do, at a glance: between one
    and three calls to the model, all of them well formed, nothing else;
    an exception only when the last call raised it; and a [last_error]
    whenever the pass hands over to the next one. *)
Lemma attempt_trace (theme : string) (w : World) :
  exists evs,
    log (snd (attempt theme w)) = log w ++ evs /\
    1 <= length evs <= 3 /\
    forallb is_invoke evs = true /\
    Forall event_ok evs /\
    db (snd (attempt theme w)) = db w /\
    match fst (attempt theme w) with
    | Return (Break _) => True
    | Return (Next le) => is_Some le
    | Raise e => raised_by_client e (log (snd (attempt theme w)))
    | OutOfFuel => False
    end.
Proof.
  pose proof (initial_messages_well_formed theme) as Hinit.
  destruct (invoke (llm w) (initial_messages theme)) as [[te|o] s1] eqn:H1.
  { rewrite (attempt_transport _ _ _ _ H1). eexists [_]. cbn.
    repeat split; auto. exists (log w), (initial_messages theme). reflexivity. }
  destruct (parse_story (response_text_of o)) as [e|st0] eqn:H2.
  { destruct (invoke s1 (repair_messages (document_repair_prompt e)))
      as [r s2] eqn:H3.
    rewrite (attempt_parse_error _ _ _ _ _ _ _ H1 H2 H3).
    pose proof (document_repair_well_formed e) as Hrep.
    eexists [_; _]. cbn [fst snd]. rewrite invoked_invoked_log.
    split; [reflexivity|]. split; [cbn; lia|]. split; [reflexivity|].
    split; [repeat constructor; assumption|]. split; [reflexivity|].
    destruct r as [te|o2]; [|eauto].
    exists (log w ++ [EvInvoke (initial_messages theme) (inr o)]),
           (repair_messages (document_repair_prompt e)).
    rewrite <- app_assoc. reflexivity. }
  destruct (root_error st0) as [ve|] eqn:H3.
  - pose proof (root_repair_well_formed ve (response_text_of o)) as Hrep.
    destruct (invoke s1 (repair_messages (root_repair_prompt ve (response_text_of o))))
      as [[te|o2] s2] eqn:H4.
    + destruct (invoke s2 (repair_messages (document_repair_prompt te)))
        as [r3 s3] eqn:H5.
      rewrite (attempt_root_repair_transport _ _ _ _ _ _ _ _ _ _ H1 H2 H3 H4 H5).
      pose proof (document_repair_well_formed te) as Hdoc.
      eexists [_; _; _]. cbn [fst snd].
      split; [cbn; rewrite <- !app_assoc; reflexivity|].
      split; [cbn; lia|]. split; [reflexivity|].
      split; [repeat constructor; assumption|]. split; [reflexivity|].
      destruct r3 as [te'|o3]; [|eauto].
      eexists _, _. cbn. reflexivity.
    + rewrite (attempt_root_repair _ _ _ _ _ _ _ _ H1 H2 H3 H4).
      eexists [_; _]. cbn [fst snd]. rewrite invoked_invoked_log.
      split; [reflexivity|]. split; [cbn; lia|]. split; [reflexivity|].
      split; [repeat constructor; assumption|]. split; [reflexivity|].
      destruct (validate_document (response_text_of o2)); [eauto|exact I].
  - rewrite (attempt_accept _ _ _ _ _ H1 H2 H3). eexists [_]. cbn.
    repeat split; auto.
Qed.

(** The same for the loop as a whole. *)
Lemma attempts_trace (theme : string) (n : nat) : forall le (w : World),
  exists evs,
    log (snd (attempts n theme le w)) = log w ++ evs /\
    length evs <= 3 * n /\
    forallb is_invoke evs = true /\
    Forall event_ok evs /\
    db (snd (attempts n theme le w)) = db w /\
    match fst (attempts n theme le w) with
    | Return _ => 1 <= length evs
    | Raise e =>
        raised_by_client e (log (snd (attempts n theme le w))) \/
        exists le',
          e = OutputParserException
                ("Failed to generate valid story after " ++ pretty MAX_RETRIES ++ " attempts")
                le' /\
          (is_Some le \/ 0 < n -> is_Some le')
    | OutOfFuel => False
    end.
Proof.
  induction n as [|n IH]; intros le w.
  - exists []. cbn. rewrite app_nil_r. repeat split; auto.
    right. exists le. split; [reflexivity|]. intros [H|H]; [exact H|lia].
  - rewrite attempts_S.
    destruct (attempt_trace theme w) as (evs & Hlog & Hlen & Hinv & Hok & Hdb & Hout).
    destruct (attempt theme w) as [[[st0|le0]|e|] w0] eqn:Ha; cbn [fst snd] in *.
    + exists evs. repeat split; auto; lia.
    + destruct (IH le0 w0) as (evs' & Hlog' & Hlen' & Hinv' & Hok' & Hdb' & Hout').
      destruct (attempts n theme le0 w0) as [out1 w1]; cbn [fst snd] in *.
      exists (evs ++ evs'). rewrite app_assoc, <- Hlog, <- Hlog', Hdb', Hdb.
      split; [reflexivity|]. split; [rewrite length_app; lia|].
      split; [rewrite forallb_app, Hinv, Hinv'; reflexivity|].
      split; [apply Forall_app; auto|]. split; [reflexivity|].
      destruct out1 as [st|e|].
      * rewrite length_app. lia.
      * destruct Hout' as [Hclient|(le' & He & Hle')]; [left; exact Hclient|].
        right. exists le'. split; [exact He|]. intros _. apply Hle'. left. exact Hout.
      * exact Hout'.
    + exists evs. split; [exact Hlog|]. split; [lia|]. split; [exact Hinv|].
      split; [exact Hok|]. split; [exact Hdb|]. left. exact Hout.
    + contradiction.
Qed.

(** X1.  Whatever the model answers, the repair loop with a budget of [n]
    attempts ends after at most [3 * n] calls to the model (nine for
    [MAX_RETRIES]): it either returns a document or raises, it does
    nothing but call the model, and it does not touch storage. *)
Theorem repair_loop_call_bound (theme : string) (n : nat) (le : option Exception)
    (w : World) :
  exists evs,
    log (snd (attempts n theme le w)) = log w ++ evs /\
    length evs <= 3 * n /\
    forallb is_invoke evs = true /\
    db (snd (attempts n theme le w)) = db w /\
    fst (attempts n theme le w) <> OutOfFuel.
Proof.
  destruct (attempts_trace theme n le w) as (evs & Hlog & Hlen & Hinv & _ & Hdb & Hout).
  exists evs. repeat split; auto.
  intros Heq. rewrite Heq in Hout. exact Hout.
Qed.

(** X8.  A failure of the call that sends the document repair prompt
    (line 136) is not caught either: the exception of the client leaves
    the loop and [generate_story] at once, whatever budget remains. *)
Theorem repair_call_failure_aborts (theme : string) (w : World) o s1 e te s2 :
  invoke (llm w) (initial_messages theme) = (inr o, s1) ->
  parse_story (response_text_of o) = inl e ->
  invoke s1 (repair_messages (document_repair_prompt e)) = (inl te, s2) ->
  let w' := mkWorld s2 (db w)
              (log w ++ [EvInvoke (initial_messages theme) (inr o);
                         EvInvoke (repair_messages (document_repair_prompt e)) (inl te)]) in
  (forall n le, attempts (S n) theme le w = (Raise te, w')) /\
  (forall fuel session_id, generate_story fuel session_id theme w = (Raise te, w')).
Proof.
  intros H1 H2 H3 w'.
  assert (Hn : forall n le, attempts (S n) theme le w = (Raise te, w')).
  { intros n le. rewrite attempts_S, (attempt_parse_error _ _ _ _ _ _ _ H1 H2 H3).
    unfold w', invoked. cbn. rewrite <- app_assoc. reflexivity. }
  split; [exact Hn|].
  intros fuel session_id. apply generate_story_raise_in_loop. apply Hn.
Qed.

End LoopAccounting.

(* ===================================================================== *)
(** ** More about the materializer: what it logs, what it raises *)
(* ===================================================================== *)

Section MaterializerAccounting.
Context {C : Collaborators}.

Lemma added_rows_app (a b : list Event) :
  added_rows (a ++ b) = added_rows a ++ added_rows b.
Proof.
  induction a as [|ev a IH]; [reflexivity|].
  destruct ev; cbn; rewrite ?IH; reflexivity.
Qed.

Lemma added_rows_invokes (evs : list Event) :
  forallb is_invoke evs = true -> added_rows evs = [].
Proof.
  induction evs as [|ev evs IH]; [reflexivity|].
  destruct ev; cbn; try discriminate. exact IH.
Qed.

Lemma raised_by_client_app (e : Exception) (l l' : list Event) :
  raised_by_client e l' -> raised_by_client e (l ++ l').
Proof.
  intros (l0 & messages & ->). exists (l ++ l0), messages. apply app_assoc.
Qed.

Lemma resolve_trace (next_node_data : NodeData) (w : World) :
  exists evs,
    log (snd (resolve_next_node next_node_data w)) = log w ++ evs /\
    forallb is_invoke evs = true /\
    Forall event_ok evs /\
    materializer_raise (resolve_next_node next_node_data w).
Proof.
  destruct next_node_data as [d|n].
  - destruct (model_validate d) as [e|n] eqn:Hv.
    + destruct (invoke (llm w) (node_repair_messages d)) as [r s1] eqn:Hi.
      rewrite (resolve_repair _ _ _ _ _ Hv Hi). eexists [_].
      unfold materializer_raise. cbn [fst snd].
      split; [reflexivity|]. split; [reflexivity|].
      split; [repeat constructor; apply node_repair_well_formed|].
      destruct r as [te|out].
      * right. eexists _, _. reflexivity.
      * destruct (parse_node (response_text_of out)) as [rexc|n]; [|exact I].
        left. exists rexc. reflexivity.
    + rewrite (resolve_valid _ _ _ Hv). exists []. unfold materializer_raise. cbn.
      rewrite app_nil_r. repeat split; auto.
  - exists []. unfold materializer_raise. cbn. rewrite app_nil_r. repeat split; auto.
Qed.

Lemma process_options_trace (sid : nat) (rec : StoryNodeLLM -> M StoryNode.t) :
  (forall child (w : World),
     exists evs,
       log (snd (rec child w)) = log w ++ evs /\
       Forall event_ok evs /\
       Forall (inner_row sid) (added_rows evs) /\
       materializer_raise (rec child w)) ->
  forall opts payload (w : World),
    exists evs,
      log (snd (process_options rec opts payload w)) = log w ++ evs /\
      Forall event_ok evs /\
      Forall (inner_row sid) (added_rows evs) /\
      materializer_raise (process_options rec opts payload w).
Proof.
  intros Hrec opts. induction opts as [|o rest IH]; intros payload w.
  - exists []. unfold materializer_raise. cbn. rewrite app_nil_r. repeat split; auto.
  - cbn [process_options]. unfold bind.
    destruct (resolve_trace (nextNode o) w) as (evs1 & Hlog1 & Hinv1 & Hok1 & Hr1).
    destruct (resolve_next_node (nextNode o) w) as [[child|e|] w1]; cbn [fst snd] in *.
    2,3: exists evs1; rewrite (added_rows_invokes _ Hinv1); repeat split; auto.
    destruct (Hrec child w1) as (evs2 & Hlog2 & Hok2 & Hrows2 & Hr2).
    destruct (rec child w1) as [[row|e|] w2]; cbn [fst snd] in *.
    2,3: exists (evs1 ++ evs2);
         split; [rewrite Hlog2, Hlog1, <- app_assoc; reflexivity|];
         split; [apply Forall_app; auto|];
         split; [rewrite added_rows_app, (added_rows_invokes _ Hinv1); exact Hrows2|];
         exact Hr2.
    destruct (IH (payload ++ [mkOptionRow (text o) (StoryNode.id row)]) w2)
      as (evs3 & Hlog3 & Hok3 & Hrows3 & Hr3).
    exists (evs1 ++ evs2 ++ evs3).
    split; [rewrite Hlog3, Hlog2, Hlog1, <- !app_assoc; reflexivity|].
    split; [repeat (apply Forall_app; split); auto|].
    split; [|exact Hr3].
    rewrite !added_rows_app, (added_rows_invokes _ Hinv1). cbn [app].
    apply Forall_app; auto.
Qed.

(** What a materialize call logs: first the insert of the row of its node,
    then calls to the model that are well formed and rows that lie below
    the root and belong to the story.  What it raises is a failed node
    repair or the exception of the client. *)
Lemma process_story_node_trace (fuel : nat) :
  forall (sid : nat) (nd : StoryNodeLLM) (is_root : bool) (w : World),
    exists evs,
      log (snd (_process_story_node fuel sid nd is_root w)) = log w ++ evs /\
      Forall event_ok evs /\
      (evs = [] \/
       exists evs', evs = EvAddNode (fresh_row w sid nd is_root) :: evs' /\
                    Forall (inner_row sid) (added_rows evs')) /\
      materializer_raise (_process_story_node fuel sid nd is_root w).
Proof.
  induction fuel as [|fuel IH]; intros sid nd is_root w.
  - exists []. unfold materializer_raise. cbn. rewrite app_nil_r. repeat split; auto.
  - rewrite process_story_node_S. cbv zeta.
    destruct (isEnding nd).
    { eexists [_]. unfold materializer_raise. cbn [fst snd added log].
      split; [reflexivity|]. split; [repeat constructor|]. split; [|exact I].
      right. exists []. split; [reflexivity|constructor]. }
    destruct (process_options_trace sid
                (fun child => _process_story_node fuel sid child false)) with
      (opts := options nd) (payload := @nil OptionRow)
      (w := added w (fresh_row w sid nd is_root))
      as (evs & Hlog & Hok & Hrows & Hr).
    { intros child w0. destruct (IH sid child false w0) as (evs & Hlog & Hok & Hshape & Hr).
      exists evs. split; [exact Hlog|]. split; [exact Hok|]. split; [|exact Hr].
      destruct Hshape as [->|(evs' & -> & Hrows)]; [constructor|].
      cbn. constructor; [split; reflexivity|exact Hrows]. }
    destruct (process_options _ (options nd) [] (added w (fresh_row w sid nd is_root)))
      as [[payload|e|] w2]; cbn [fst snd] in *.
    + eexists (EvAddNode _ :: evs ++ [EvSetOptions _ payload]).
      unfold materializer_raise. cbn [fst snd db_set_options log].
      split; [rewrite Hlog; cbn; rewrite <- !app_assoc; reflexivity|].
      split; [constructor; [exact I|]; apply Forall_app; split;
              [exact Hok|repeat constructor]|].
      split; [|exact I]. right. eexists. split; [reflexivity|].
      rewrite added_rows_app. cbn. rewrite app_nil_r. exact Hrows.
    + exists (EvAddNode (fresh_row w sid nd is_root) :: evs).
      split; [rewrite Hlog; cbn; rewrite <- !app_assoc; reflexivity|].
      split; [constructor; [exact I|exact Hok]|].
      split; [right; eexists; split; [reflexivity|exact Hrows]|].
      exact Hr.
    + exists (EvAddNode (fresh_row w sid nd is_root) :: evs).
      split; [rewrite Hlog; cbn; rewrite <- !app_assoc; reflexivity|].
      split; [constructor; [exact I|exact Hok]|].
      split; [right; eexists; split; [reflexivity|exact Hrows]|].
      exact I.
Qed.

End MaterializerAccounting.

(* ===================================================================== *)
(** ** More about [generate_story] *)
(* ===================================================================== *)

Section GenerateAccounting.
Context {C : Collaborators}.

Lemma budget_message :
  ("Failed to generate valid story after " ++ pretty MAX_RETRIES ++ " attempts")%string
  = "Failed to generate valid story after 3 attempts".
Proof. reflexivity. Qed.

(** The log of a whole run and the exception it may end with. *)
Lemma generate_story_trace (fuel : nat) (session_id theme : string) (w : World) :
  exists evs,
    log (snd (generate_story fuel session_id theme w)) = log w ++ evs /\
    Forall event_ok evs /\
    (added_rows evs = [] \/
     exists root rest,
       added_rows evs = root :: rest /\
       StoryNode.is_root root = true /\
       StoryNode.story_id root = next_story_id (db w) /\
       Forall (inner_row (next_story_id (db w))) rest) /\
    match fst (generate_story fuel session_id theme w) with
    | Raise e =>
        is_budget_exhausted e \/ is_node_repair_failure e \/
        raised_by_client e (log (snd (generate_story fuel session_id theme w)))
    | _ => True
    end.
Proof.
  rewrite generate_story_unfold.
  destruct (attempts_trace theme MAX_RETRIES None w)
    as (evs0 & Hlog0 & _ & Hinv0 & Hok0 & Hdb0 & Hout0).
  destruct (attempts MAX_RETRIES theme None w) as [[st|e|] w0] eqn:Hloop;
    cbn [fst snd] in *.
  2: { exists evs0. split; [exact Hlog0|]. split; [exact Hok0|].
       split; [left; apply added_rows_invokes; exact Hinv0|].
       destruct Hout0 as [Hclient|(le' & He & Hle')]; [auto|].
       assert (Hpos : 0 < MAX_RETRIES) by (unfold MAX_RETRIES; lia).
       left. destruct (Hle' (or_intror Hpos)) as [last ->].
       exists last. rewrite He, budget_message. reflexivity. }
  2: contradiction.
  destruct (attempts_accept _ _ _ _ _ _ Hloop) as (o & Hval).
  destruct (root_of_accepted st (validate_document_root_ok _ _ Hval))
    as (root & Hroot & _).
  rewrite Hroot. cbv zeta. cbn [Story.id]. rewrite Hdb0.
  set (story := Story.mk (next_story_id (db w)) (title st) session_id).
  destruct (process_story_node_trace fuel (next_story_id (db w)) root true
              (story_added w0 story)) as (evs2 & Hlog2 & Hok2 & Hshape & Hr).
  assert (Hrows : added_rows (evs0 ++ EvAddStory story :: evs2) = [] \/
                  exists first rest,
                    added_rows (evs0 ++ EvAddStory story :: evs2) = first :: rest /\
                    StoryNode.is_root first = true /\
                    StoryNode.story_id first = next_story_id (db w) /\
                    Forall (inner_row (next_story_id (db w))) rest).
  { rewrite added_rows_app, (added_rows_invokes _ Hinv0). cbn.
    destruct Hshape as [->|(evs' & -> & Hinner)]; [left; reflexivity|].
    right. eexists _, _. split; [reflexivity|]. repeat split. exact Hinner. }
  assert (Hlog : log (snd (_process_story_node fuel (next_story_id (db w)) root true
                             (story_added w0 story)))
                 = log w ++ evs0 ++ EvAddStory story :: evs2).
  { rewrite Hlog2. cbn. rewrite Hlog0, <- !app_assoc. reflexivity. }
  assert (Hok : Forall event_ok (evs0 ++ EvAddStory story :: evs2)).
  { apply Forall_app. split; [exact Hok0|]. constructor; [exact I|exact Hok2]. }
  unfold materializer_raise in Hr.
  destruct (_process_story_node fuel (next_story_id (db w)) root true
              (story_added w0 story)) as [[node|e|] w2]; cbn [fst snd] in *.
  - exists ((evs0 ++ EvAddStory story :: evs2) ++ [EvCommit]).
    split; [cbn; rewrite Hlog, <- !app_assoc; reflexivity|].
    split; [apply Forall_app; split; [exact Hok|repeat constructor]|].
    split; [|exact I]. rewrite added_rows_app. cbn. rewrite app_nil_r. exact Hrows.
  - exists (evs0 ++ EvAddStory story :: evs2).
    split; [exact Hlog|]. split; [exact Hok|]. split; [exact Hrows|].
    destruct Hr as [Hrepair|Hclient]; [right; left; exact Hrepair|].
    right. right. exact Hclient.
  - exists (evs0 ++ EvAddStory story :: evs2).
    split; [exact Hlog|]. split; [exact Hok|]. split; [exact Hrows|exact I].
Qed.

(** X3.  An exception that leaves [generate_story] is one of three: the
    budget exhaustion of the loop (carrying a last error), the failure of
    a node repair, or the exception that the client raised in the last
    call made.  In particular no error of the validator or of a parser
    reaches the caller unwrapped. *)
Theorem generate_story_exceptions (fuel : nat) (session_id theme : string)
    (w : World) e w' :
  generate_story fuel session_id theme w = (Raise e, w') ->
  is_budget_exhausted e \/ is_node_repair_failure e \/ raised_by_client e (log w').
Proof.
  intros Hrun.
  destruct (generate_story_trace fuel session_id theme w) as (evs & _ & _ & _ & Hkind).
  rewrite Hrun in Hkind. exact Hkind.
Qed.

(** X10.  In every run of [generate_story], whatever its outcome, each call
    to the model carries exactly two messages, a system message and then a
    human message, and the system message opens with [STORY_PROMPT]. *)
Theorem every_call_carries_story_prompt (fuel : nat) (session_id theme : string)
    (w : World) :
  exists evs,
    log (snd (generate_story fuel session_id theme w)) = log w ++ evs /\
    forall messages r, EvInvoke messages r ∈ evs -> well_formed_call messages.
Proof.
  destruct (generate_story_trace fuel session_id theme w) as (evs & Hlog & Hok & _).
  exists evs. split; [exact Hlog|]. intros messages r Hin.
  rewrite Forall_forall in Hok. exact (Hok _ Hin).
Qed.

(** X11.  Of the node rows that a run of [generate_story] inserts, the
    first, and only the first, is marked [is_root]; all of them carry the
    key of the story row of this run. *)
Theorem one_root_row_per_story (fuel : nat) (session_id theme : string)
    (w : World) :
  exists evs,
    log (snd (generate_story fuel session_id theme w)) = log w ++ evs /\
    Forall (fun row => StoryNode.story_id row = next_story_id (db w))
           (added_rows evs) /\
    match added_rows evs with
    | [] => True
    | root :: rest =>
        StoryNode.is_root root = true /\
        Forall (fun row => StoryNode.is_root row = false) rest
    end.
Proof.
  destruct (generate_story_trace fuel session_id theme w)
    as (evs & Hlog & _ & Hrows & _).
  exists evs. split; [exact Hlog|].
  destruct Hrows as [->|(root & rest & -> & Hroot & Hsid & Hinner)].
  - split; [constructor|exact I].
  - split; [|split; [exact Hroot|]].
    + constructor; [exact Hsid|]. eapply Forall_impl; [exact Hinner|].
      intros row [_ H]. exact H.
    + eapply Forall_impl; [exact Hinner|]. intros row [H _]. exact H.
Qed.

(** X2.  [generate_story] neither changes nor removes a row that the
    session held before the call: node rows below the key counter and
    story rows at any key but the one it hands out are what they were,
    whatever the outcome; the counters never go back. *)
Theorem existing_rows_untouched (fuel : nat) (session_id theme : string)
    (w : World) out w' :
  wf_session (db w) ->
  generate_story fuel session_id theme w = (out, w') ->
  (forall k, k < next_node_id (db w) -> nodes (db w') !! k = nodes (db w) !! k) /\
  (forall k, k <> next_story_id (db w) -> stories (db w') !! k = stories (db w) !! k) /\
  next_node_id (db w) <= next_node_id (db w') /\
  next_story_id (db w) <= next_story_id (db w').
Proof.
  intros Hwf Hrun.
  destruct (generate_story_phases _ _ _ _ _ _ Hwf Hrun)
    as [(evs0 & _ & Hdb & _)
       |(evs0 & o & st & root & w0 & pout & w2 & _ & _ & Hdb0 & _ & _ & Hrest)].
  - rewrite Hdb. repeat split; auto.
  - cbv zeta in Hrest. destruct Hrest as (_ & (Hext & _) & Hout).
    assert (Hdb2 :
      (forall k, k < next_node_id (db w) -> nodes (db w2) !! k = nodes (db w) !! k) /\
      (forall k, k <> next_story_id (db w) -> stories (db w2) !! k = stories (db w) !! k) /\
      next_node_id (db w) <= next_node_id (db w2) /\
      next_story_id (db w) <= next_story_id (db w2)).
    { split; [|split; [|split]].
      - intros k Hk. rewrite (ext_frame _ _ _ Hext); cbn; rewrite Hdb0; auto.
      - intros k Hk. rewrite (ext_stories _ _ _ Hext). cbn. rewrite Hdb0.
        apply lookup_insert_ne. auto.
      - pose proof (ext_next _ _ _ Hext) as Hn. cbn in Hn. rewrite Hdb0 in Hn. exact Hn.
      - rewrite (ext_next_story _ _ _ Hext). cbn. rewrite Hdb0. lia. }
    destruct pout; injection Hout as -> ->; exact Hdb2.
Qed.

(** X9.  There is no rollback.  When [generate_story] raises, either
    storage is as it was, or the story row and the root node row (its
    options list still empty) are left in the open transaction, with the
    committed tables as they were. *)
Theorem failure_leaves_rows_pending (fuel : nat) (session_id theme : string)
    (w : World) e w' :
  wf_session (db w) ->
  generate_story fuel session_id theme w = (Raise e, w') ->
  db w' = db w \/
  (exists story root_row,
     stories (db w') !! next_story_id (db w) = Some story /\
     Story.session_id story = session_id /\
     nodes (db w') !! next_node_id (db w) = Some root_row /\
     StoryNode.is_root root_row = true /\
     StoryNode.story_id root_row = next_story_id (db w) /\
     StoryNode.options root_row = [] /\
     committed_stories (db w') = committed_stories (db w) /\
     committed_nodes (db w') = committed_nodes (db w)).
Proof.
  intros Hwf Hrun.
  destruct (generate_story_phases _ _ _ _ _ _ Hwf Hrun)
    as [(evs0 & _ & Hdb & _)
       |(evs0 & o & st & root & w0 & pout & w2 & _ & _ & Hdb0 & _ & _ & Hrest)];
    [left; exact Hdb|right].
  cbv zeta in Hrest. destruct Hrest as (Hnode & (Hext & _) & Hout).
  set (story := Story.mk (next_story_id (db w)) (title st) session_id) in *.
  destruct pout as [node|e'|]; try discriminate. injection Hout as -> ->.
  assert (Hwf1 : wf_session (db (story_added w0 story))).
  { unfold wf_session. cbn. rewrite Hdb0. exact Hwf. }
  destruct fuel as [|fuel]; [discriminate|].
  rewrite process_story_node_S in Hnode. cbv zeta in Hnode.
  destruct (isEnding root) eqn:Hend; [discriminate|].
  set (row := fresh_row (story_added w0 story) (Story.id story) root true) in *.
  destruct (process_options _ (options root) [] (added (story_added w0 story) row))
    as [[payload|e''|] w3] eqn:Hloop; try discriminate.
  injection Hnode as -> ->.
  pose proof (extends_added (Story.id story) (story_added w0 story) root true Hwf1)
    as Hext1. fold row in Hext1.
  destruct (process_options_materialized (Story.id story)
              (next_node_id (db (story_added w0 story))) _
              (fun child w1 out1 w1' Hw Hc =>
                 process_story_node_materialized fuel (Story.id story) child false
                                                 w1 out1 w1' Hw Hc)
              _ _ _ _ _ (ext_wf _ _ _ Hext1) ltac:(cbn; lia) Hloop) as (Hext2 & _).
  exists story, row. split; [|split; [reflexivity|split; [|split; [reflexivity|]]]].
  - rewrite (ext_stories _ _ _ Hext). cbn. rewrite Hdb0. apply lookup_insert_eq.
  - rewrite (ext_frame _ _ _ Hext2) by (cbn; rewrite Hdb0; lia). cbn. rewrite Hdb0.
    apply lookup_insert_eq.
  - split; [reflexivity|]. split; [reflexivity|].
    rewrite (ext_committed_stories _ _ _ Hext), (ext_committed_nodes _ _ _ Hext).
    cbn. rewrite Hdb0. split; reflexivity.
Qed.

End GenerateAccounting.

(* ===================================================================== *)
(** ** More about the materializer: keys, counts, trees needing no repair *)
(* ===================================================================== *)

Section MaterializerShape.
Context {C : Collaborators}.

Lemma stored_lookup (tbl : gmap nat StoryNode.t) (sid : nat) is_root nd row :
  stored tbl sid is_root nd row -> tbl !! StoryNode.id row = Some row.
Proof. intros H. inversion H; assumption. Qed.

(** The keys of the children made by the loop over the options go up. *)
Lemma process_options_keys (sid : nat) (rec : StoryNodeLLM -> M StoryNode.t) :
  (forall child w out w',
     wf_session (db w) -> rec child w = (out, w') ->
     materialized sid false child w out w') ->
  forall opts payload (w : World) payload' w',
    wf_session (db w) ->
    process_options rec opts payload w = (Return payload', w') ->
    exists new,
      payload' = payload ++ new /\
      Forall (fun p => next_node_id (db w) <= node_id p) new /\
      StronglySorted lt (map node_id new).
Proof.
  intros Hrec opts.
  induction opts as [|o rest IH]; intros payload w payload' w' Hwf Hrun.
  - cbn in Hrun. injection Hrun as <- <-. exists []. rewrite app_nil_r.
    repeat split; constructor.
  - cbn [process_options] in Hrun. unfold bind at 1 in Hrun.
    destruct (resolve_effects (nextNode o) w) as (evs & Hdb & _).
    destruct (resolve_next_node (nextNode o) w) as [[child|e|] w1];
      cbn [snd] in Hdb; try discriminate.
    assert (Hwf1 : wf_session (db w1)) by (rewrite Hdb; exact Hwf).
    unfold bind at 1 in Hrun.
    destruct (rec child w1) as [[row|e|] w2] eqn:Hcall; try discriminate.
    destruct (Hrec _ _ _ _ Hwf1 Hcall) as (Hext & Hid & Hstored).
    pose proof (ext_wf _ _ _ Hext) as Hwf2.
    pose proof (wf_lookup_lt _ _ _ Hwf2 (stored_lookup _ _ _ _ _ Hstored)) as Hlt.
    destruct (IH _ _ _ _ Hwf2 Hrun) as (new & -> & Hlow & Hsorted).
    exists (mkOptionRow (text o) (StoryNode.id row) :: new).
    split; [rewrite <- app_assoc; reflexivity|]. split.
    + constructor; [cbn; rewrite Hid, Hdb; lia|].
      eapply Forall_impl; [exact Hlow|]. cbn. intros p Hp. rewrite <- Hdb, <- Hid. lia.
    + cbn. constructor; [exact Hsorted|].
      apply Forall_map. eapply Forall_impl; [exact Hlow|]. cbn. intros p Hp. lia.
Qed.

Lemma strongly_sorted_lt_nodup (l : list nat) : StronglySorted lt l -> NoDup l.
Proof.
  induction 1 as [|x l Hs IH Hall]; constructor; [|exact IH].
  intros Hin. rewrite Forall_forall in Hall. specialize (Hall x Hin). lia.
Qed.

(** X4.  In the row that a materialize call returns, the keys of the
    children go strictly up along the options list and all lie above the
    key of the row itself: no two options share a child and no node is its
    own child. *)
Theorem child_keys_increase (fuel sid : nat) (nd : StoryNodeLLM) (is_root : bool)
    (w : World) node w' :
  wf_session (db w) ->
  _process_story_node fuel sid nd is_root w = (Return node, w') ->
  StronglySorted lt (StoryNode.id node :: map node_id (StoryNode.options node)) /\
  NoDup (map node_id (StoryNode.options node)).
Proof.
  intros Hwf Hrun.
  assert (Hs : StronglySorted lt
                 (StoryNode.id node :: map node_id (StoryNode.options node))).
  { destruct fuel as [|fuel]; [discriminate|].
    rewrite process_story_node_S in Hrun. cbv zeta in Hrun.
    destruct (isEnding nd).
    { injection Hrun as <- <-. cbn. repeat constructor. }
    destruct (process_options _ (options nd) [] _) as [[payload|e|] w2] eqn:Hloop;
      try discriminate.
    pose proof (ext_wf _ _ _ (extends_added sid w nd is_root Hwf)) as Hwf1.
    destruct (process_options_keys sid _
                (fun child w0 out0 w0' Hw Hc =>
                   process_story_node_materialized fuel sid child false w0 out0 w0' Hw Hc)
                _ _ _ _ _ Hwf1 Hloop) as (new & Hnew & Hlow & Hsorted).
    cbn [app] in Hnew. subst new.
    unfold db_set_options in Hrun. injection Hrun as <- <-. cbn.
    constructor; [exact Hsorted|].
    apply Forall_map. eapply Forall_impl; [exact Hlow|]. cbn. intros p Hp. lia. }
  split; [exact Hs|].
  apply strongly_sorted_lt_nodup. inversion Hs; assumption.
Qed.

(** *** Trees that need no repair *)

Lemma process_options_repair_free (fuel sid : nat) :
  (forall nd is_root (w : World),
     repair_free fuel nd = true ->
     exists node w',
       _process_story_node fuel sid nd is_root w = (Return node, w') /\
       llm w' = llm w /\
       exists evs, log w' = log w ++ evs /\ forallb is_write evs = true) ->
  forall opts payload (w : World),
    forallb (fun o =>
               match nextNode o with
               | NodeObj c => repair_free fuel c
               | NodeDict d =>
                   match model_validate d with
                   | inr c => repair_free fuel c
                   | inl _ => false
                   end
               end) opts = true ->
    exists payload' w',
      process_options (fun child => _process_story_node fuel sid child false)
                      opts payload w = (Return payload', w') /\
      llm w' = llm w /\
      exists evs, log w' = log w ++ evs /\ forallb is_write evs = true.
Proof.
  intros Hrec opts. induction opts as [|o rest IH]; intros payload w Hall.
  - exists payload, w. cbn. repeat split. exists []. rewrite app_nil_r. auto.
  - cbn [forallb] in Hall. apply andb_true_iff in Hall as [Ho Hrest].
    assert (Hres : exists c, resolve_next_node (nextNode o) w = (Return c, w) /\
                             repair_free fuel c = true).
    { destruct (nextNode o) as [d|c].
      - destruct (model_validate d) as [e|c] eqn:Hv; [discriminate|].
        exists c. split; [apply resolve_valid; exact Hv|exact Ho].
      - exists c. split; [reflexivity|exact Ho]. }
    destruct Hres as (c & Hres & Hc).
    cbn [process_options]. unfold bind at 1. rewrite Hres. unfold bind at 1.
    destruct (Hrec c false w Hc) as (row & w1 & Hcall & Hllm1 & evs1 & Hlog1 & Hw1).
    rewrite Hcall.
    destruct (IH (payload ++ [mkOptionRow (text o) (StoryNode.id row)]) w1 Hrest)
      as (payload' & w' & Hloop & Hllm & evs2 & Hlog2 & Hw2).
    exists payload', w'. split; [exact Hloop|]. split; [congruence|].
    exists (evs1 ++ evs2). rewrite Hlog2, Hlog1, <- app_assoc.
    split; [reflexivity|]. rewrite forallb_app, Hw1, Hw2. reflexivity.
Qed.

Lemma repair_free_materializes (fuel : nat) :
  forall (sid : nat) (nd : StoryNodeLLM) (is_root : bool) (w : World),
    repair_free fuel nd = true ->
    exists node w',
      _process_story_node fuel sid nd is_root w = (Return node, w') /\
      llm w' = llm w /\
      exists evs, log w' = log w ++ evs /\ forallb is_write evs = true.
Proof.
  induction fuel as [|fuel IH]; intros sid nd is_root w Hfree; [discriminate|].
  rewrite process_story_node_S. cbv zeta. cbn [repair_free] in Hfree.
  destruct (isEnding nd).
  - eexists _, _. split; [reflexivity|]. split; [reflexivity|].
    eexists [_]. split; reflexivity.
  - cbn [orb] in Hfree.
    destruct (process_options_repair_free fuel sid (IH sid) (options nd) []
                (added w (fresh_row w sid nd is_root)) Hfree)
      as (payload & w2 & Hloop & Hllm & evs & Hlog & Hw).
    rewrite Hloop. eexists _, _. split; [reflexivity|]. cbn.
    split; [exact Hllm|].
    exists (EvAddNode (fresh_row w sid nd is_root) :: evs
            ++ [EvSetOptions (next_node_id (db w)) payload]).
    rewrite Hlog. cbn. rewrite <- !app_assoc. split; [reflexivity|].
    rewrite forallb_app, Hw. reflexivity.
Qed.

(** X6.  A tree in which every embedded node within reach is a typed
    object or a raw mapping that the validator accepts is materialized,
    given fuel for its depth, without any call to the model: the call
    returns, the endpoint is left as it was, and every effect is a write
    to storage. *)
Theorem valid_tree_needs_no_model (fuel sid : nat) (nd : StoryNodeLLM)
    (is_root : bool) (w : World) :
  repair_free fuel nd = true ->
  exists node w' evs,
    _process_story_node fuel sid nd is_root w = (Return node, w') /\
    llm w' = llm w /\
    log w' = log w ++ evs /\
    forallb is_write evs = true.
Proof.
  intros Hfree.
  destruct (repair_free_materializes fuel sid nd is_root w Hfree)
    as (node & w' & Hrun & Hllm & evs & Hlog & Hw).
  exists node, w', evs. auto.
Qed.

End MaterializerShape.

Section StoredTree.
Context {C : Collaborators}.


End StoredTree.


Section Counts.
Context {C : Collaborators}.

Lemma count_events_app (kind : Event -> bool) (a b : list Event) :
  count_events kind (a ++ b) = count_events kind a + count_events kind b.
Proof. induction a as [|ev a IH]; cbn; [reflexivity|rewrite IH; lia]. Qed.

Lemma node_count_eq (nd : StoryNodeLLM) :
  node_count nd = S (if isEnding nd then 0 else children_sum node_count (options nd)).
Proof.
  destruct nd as [c e wn opts]. cbn [node_count isEnding options]. f_equal.
  destruct e; [reflexivity|].
  induction opts as [|[t [d|ch]] opts IH]; cbn; [reflexivity|exact IH|].
  rewrite IH. reflexivity.
Qed.

Lemma process_options_counts (fuel sid : nat) :
  (forall nd is_root (w : World),
     all_typed nd = true -> height nd <= fuel ->
     exists node w' evs,
       _process_story_node fuel sid nd is_root w = (Return node, w') /\
       log w' = log w ++ evs /\
       count_events is_add_node evs = node_count nd /\
       count_events is_invoke evs = 0 /\
       next_node_id (db w') = next_node_id (db w) + node_count nd) ->
  forall opts payload (w : World),
    (forall o, o ∈ opts ->
       exists c, nextNode o = NodeObj c /\ all_typed c = true /\ height c <= fuel) ->
    exists payload' w' evs,
      process_options (fun child => _process_story_node fuel sid child false)
                      opts payload w = (Return payload', w') /\
      log w' = log w ++ evs /\
      count_events is_add_node evs = children_sum node_count opts /\
      count_events is_invoke evs = 0 /\
      next_node_id (db w') = next_node_id (db w) + children_sum node_count opts.
Proof.
  intros Hrec opts. induction opts as [|o rest IH]; intros payload w Hopts.
  - exists payload, w, []. cbn. rewrite app_nil_r. repeat split; lia.
  - destruct (Hopts o) as (c & Hn & Ht & Hh); [apply elem_of_cons; auto|].
    cbn [process_options children_sum]. unfold bind at 1.
    rewrite Hn, resolve_typed. unfold bind at 1.
    destruct (Hrec c false w Ht Hh)
      as (row & w1 & evs1 & Hcall & Hlog1 & Ha1 & Hi1 & Hn1).
    rewrite Hcall.
    destruct (IH (payload ++ [mkOptionRow (text o) (StoryNode.id row)]) w1)
      as (payload' & w' & evs2 & Hloop & Hlog2 & Ha2 & Hi2 & Hn2).
    { intros o' Hin. apply Hopts. apply elem_of_cons. auto. }
    exists payload', w', (evs1 ++ evs2). split; [exact Hloop|].
    rewrite !count_events_app, Hlog2, Hlog1, <- app_assoc.
    repeat split; lia.
Qed.

(** X5.  Materializing a tree of typed objects costs one insert for every
    node that is reached (the nodes below an ending are not) and no call
    to the model; the key counter advances by the number of inserts. *)
Theorem typed_tree_insert_count (fuel : nat) :
  forall (sid : nat) (nd : StoryNodeLLM) (is_root : bool) (w : World),
    all_typed nd = true ->
    height nd <= fuel ->
    exists node w' evs,
      _process_story_node fuel sid nd is_root w = (Return node, w') /\
      log w' = log w ++ evs /\
      count_events is_add_node evs = node_count nd /\
      count_events is_invoke evs = 0 /\
      next_node_id (db w') = next_node_id (db w) + node_count nd.
Proof.
  induction fuel as [|fuel IH]; intros sid nd is_root w Ht Hh.
  - destruct nd. cbn in Hh. lia.
  - rewrite process_story_node_S, node_count_eq. cbv zeta.
    destruct (isEnding nd) eqn:Hend.
    + eexists _, _, [_]. split; [reflexivity|]. cbn. repeat split; lia.
    + destruct (process_options_counts fuel sid (IH sid)) with
        (opts := options nd) (payload := @nil OptionRow)
        (w := added w (fresh_row w sid nd is_root))
        as (payload & w2 & evs & Hloop & Hlog & Ha & Hi & Hn).
      { intros o Hin. destruct (all_typed_option nd o Ht Hin) as (c & Hc & Htc & Hlt).
        exists c. repeat split; auto. lia. }
      rewrite Hloop.
      eexists _, _, (EvAddNode (fresh_row w sid nd is_root) :: evs
                     ++ [EvSetOptions (next_node_id (db w)) payload]).
      split; [reflexivity|]. cbn [db_set_options log db next_node_id StoryNode.id fresh_row].
      rewrite Hlog. cbn [added log].
      split; [rewrite <- !app_assoc; reflexivity|].
      cbn [count_events is_add_node is_invoke].
      rewrite !count_events_app. cbn [count_events is_add_node is_invoke].
      cbn in Hn. repeat split; lia.
Qed.

End Counts.

Section HappyPath.
Context {C : Collaborators}.

Lemma validate_document_inr (t : string) st :
  validate_document t = inr st -> parse_story t = inr st /\ root_error st = None.
Proof.
  unfold validate_document. destruct (parse_story t) as [e|st0]; [discriminate|].
  destruct (root_error st0) eqn:H; [discriminate|]. intros [= <-]. auto.
Qed.

(** X7.  When the first answer of the model is a document that passes
    validation and whose tree needs no repair, [generate_story] returns
    the story after that single call: the story row carries the title of
    the document and the session identifier, every later effect is a
    write to storage, and the committed tables hold the story row and all
    the node rows of the transaction. *)
Theorem first_valid_answer_is_committed (fuel : nat) (session_id theme : string)
    (w : World) o s1 st root :
  wf_session (db w) ->
  invoke (llm w) (initial_messages theme) = (inr o, s1) ->
  validate_document (response_text_of o) = inr st ->
  root_of st = inr root ->
  repair_free fuel root = true ->
  let story := Story.mk (next_story_id (db w)) (title st) session_id in
  exists w' evs,
    generate_story fuel session_id theme w = (Return story, w') /\
    llm w' = s1 /\
    log w' = log w ++ EvInvoke (initial_messages theme) (inr o) :: evs /\
    forallb is_write evs = true /\
    committed_stories (db w') !! next_story_id (db w) = Some story /\
    committed_nodes (db w') = nodes (db w').
Proof.
  intros Hwf Hi Hval Hroot Hfree story.
  destruct (validate_document_inr _ _ Hval) as (Hparse & Hre).
  assert (Hloop : attempts MAX_RETRIES theme None w =
                  (Return st, invoked w (initial_messages theme) (inr o) s1)).
  { unfold MAX_RETRIES. rewrite attempts_S, (attempt_accept _ _ _ _ _ Hi Hparse Hre).
    reflexivity. }
  rewrite generate_story_unfold, Hloop, Hroot. cbv zeta. cbn [Story.id].
  set (w1 := story_added (invoked w (initial_messages theme) (inr o) s1)
               (Story.mk (next_story_id (db (invoked w (initial_messages theme) (inr o) s1)))
                         (title st) session_id)).
  destruct (repair_free_materializes fuel
              (next_story_id (db (invoked w (initial_messages theme) (inr o) s1)))
              root true w1 Hfree)
    as (node & w2 & Hrun & Hllm & evs & Hlog & Hw).
  rewrite Hrun.
  assert (Hwf1 : wf_session (db w1)) by exact Hwf.
  destruct (process_story_node_materialized _ _ _ _ _ _ _ Hwf1 Hrun) as (Hext & _).
  exists (committed w2), (EvAddStory story :: evs ++ [EvCommit]).
  split; [reflexivity|]. split; [exact Hllm|]. split; [|split; [|split]].
  - cbn. rewrite Hlog. cbn. rewrite <- !app_assoc. reflexivity.
  - cbn. rewrite forallb_app, Hw. reflexivity.
  - cbn. rewrite (ext_stories _ _ _ Hext). cbn. apply lookup_insert_eq.
  - reflexivity.
Qed.

End HappyPath.

(* ===================================================================== *)
(** ** The further theorems at work on concrete runs *)
(* ===================================================================== *)

Lemma busy_session_wf : wf_session Mock.busy_session.
Proof.
  intros k Hk. cbn in *. rewrite lookup_insert_ne by lia. apply lookup_empty.
Qed.

(** The bound of nine calls is reached: three attempts of three calls. *)
Example nine_calls :
  fst (@attempts Mock.scripted 3 "pirates" None (Mock.start Mock.worst_script))
    = Raise (OutputParserException "Failed to generate valid story after 3 attempts"
                                   (Some (TransportError "timeout"))) /\
  length (log (snd (@attempts Mock.scripted 3 "pirates" None
                      (Mock.start Mock.worst_script)))) = 9.
Proof. vm_compute. split; reflexivity. Qed.

Lemma repair_call_failure_aborts_witness :
  @generate_story Mock.scripted 3 "session-1" "pirates"
    (Mock.start [inr (AIMessage "not json"); inl (TransportError "connection reset");
                 inr (AIMessage "<story: typed fork>")])
  = (Raise (TransportError "connection reset"),
     @mkWorld Mock.scripted [inr (AIMessage "<story: typed fork>")] Mock.empty_session
       [EvInvoke (@initial_messages Mock.scripted "pirates") (inr (AIMessage "not json"));
        EvInvoke (repair_messages
                    (@document_repair_prompt Mock.scripted
                       (OutputParserException "Invalid json output: not json" None)))
                 (inl (TransportError "connection reset"))]).
Proof.
  exact (proj2 (@repair_call_failure_aborts Mock.scripted "pirates"
                  (Mock.start [inr (AIMessage "not json");
                               inl (TransportError "connection reset");
                               inr (AIMessage "<story: typed fork>")])
                  (AIMessage "not json")
                  [inl (TransportError "connection reset");
                   inr (AIMessage "<story: typed fork>")]
                  (OutputParserException "Invalid json output: not json" None)
                  (TransportError "connection reset")
                  [inr (AIMessage "<story: typed fork>")]
                  eq_refl eq_refl eq_refl) 3 "session-1").
Defined.

Lemma generate_story_exceptions_witness :
  is_budget_exhausted Mock.repair_failed \/
  is_node_repair_failure Mock.repair_failed \/
  raised_by_client Mock.repair_failed (log (snd Mock.cracked_run)).
Proof.
  apply (@generate_story_exceptions Mock.scripted 3 "session-1" "pirates"
           (Mock.start [inr (AIMessage "<story: cracked>"); inr (AIMessage "garbage")])
           Mock.repair_failed (snd Mock.cracked_run)).
  vm_compute. reflexivity.
Defined.

Lemma existing_rows_untouched_witness :
  nodes (db (snd (@generate_story Mock.scripted 3 "session-1" "pirates"
                    (Mock.busy_start [inr (AIMessage "<story: typed fork>")]))))
    !! 1 = Some Mock.old_node /\
  stories (db (snd (@generate_story Mock.scripted 3 "session-1" "pirates"
                      (Mock.busy_start [inr (AIMessage "<story: typed fork>")]))))
    !! 1 = Some Mock.old_story.
Proof.
  destruct (@existing_rows_untouched Mock.scripted 3 "session-1" "pirates"
              (Mock.busy_start [inr (AIMessage "<story: typed fork>")])
              (Return (Story.mk 2 "The Road" "session-1"))
              (snd (@generate_story Mock.scripted 3 "session-1" "pirates"
                      (Mock.busy_start [inr (AIMessage "<story: typed fork>")])))
              busy_session_wf ltac:(vm_compute; reflexivity))
    as (Hnodes & Hstories & _).
  split.
  - rewrite (Hnodes 1) by (cbn; lia). reflexivity.
  - rewrite (Hstories 1) by (cbn; lia). reflexivity.
Defined.

Lemma failure_leaves_rows_pending_witness :
  db (snd Mock.cracked_run)
    = db (Mock.start [inr (AIMessage "<story: cracked>"); inr (AIMessage "garbage")]) \/
  (exists story root_row,
     stories (db (snd Mock.cracked_run)) !! 1 = Some story /\
     Story.session_id story = "session-1" /\
     nodes (db (snd Mock.cracked_run)) !! 1 = Some root_row /\
     StoryNode.is_root root_row = true /\
     StoryNode.story_id root_row = 1 /\
     StoryNode.options root_row = [] /\
     committed_stories (db (snd Mock.cracked_run)) = ∅ /\
     committed_nodes (db (snd Mock.cracked_run)) = ∅).
Proof.
  apply (@failure_leaves_rows_pending Mock.scripted 3 "session-1" "pirates"
           (Mock.start [inr (AIMessage "<story: cracked>"); inr (AIMessage "garbage")])
           Mock.repair_failed (snd Mock.cracked_run) empty_session_wf).
  vm_compute. reflexivity.
Defined.

Lemma child_keys_increase_witness :
  StronglySorted lt (StoryNode.id Mock.fork_row
                     :: map node_id (StoryNode.options Mock.fork_row)) /\
  NoDup (map node_id (StoryNode.options Mock.fork_row)).
Proof.
  apply (@child_keys_increase Mock.scripted 2 1 Mock.fork true (Mock.start [])
           Mock.fork_row
           (snd (@_process_story_node Mock.scripted 2 1 Mock.fork true (Mock.start [])))
           empty_session_wf).
  vm_compute. reflexivity.
Defined.

Lemma typed_tree_insert_count_witness :
  exists node w' evs,
    @_process_story_node Mock.scripted 2 1 Mock.fork true (Mock.start [])
      = (Return node, w') /\
    log w' = log (Mock.start []) ++ evs /\
    count_events is_add_node evs = 3 /\
    count_events is_invoke evs = 0 /\
    next_node_id (db w') = 1 + 3.
Proof.
  exact (@typed_tree_insert_count Mock.scripted 2 1 Mock.fork true (Mock.start [])
           eq_refl ltac:(vm_compute; lia)).
Defined.

Lemma valid_tree_needs_no_model_witness :
  exists node w' evs,
    @_process_story_node Mock.scripted 2 1 Mock.raw_fork true (Mock.start [])
      = (Return node, w') /\
    llm w' = llm (Mock.start []) /\
    log w' = log (Mock.start []) ++ evs /\
    forallb is_write evs = true.
Proof.
  exact (@valid_tree_needs_no_model Mock.scripted 2 1 Mock.raw_fork true
           (Mock.start []) eq_refl).
Defined.

Lemma first_valid_answer_is_committed_witness :
  exists w' evs,
    @generate_story Mock.scripted 2 "session-1" "pirates"
      (Mock.start [inr (AIMessage "<story: raw fork>")])
      = (Return Mock.story_row, w') /\
    llm w' = [] /\
    log w' = log (Mock.start [inr (AIMessage "<story: raw fork>")])
             ++ EvInvoke (@initial_messages Mock.scripted "pirates")
                         (inr (AIMessage "<story: raw fork>")) :: evs /\
    forallb is_write evs = true /\
    committed_stories (db w') !! 1 = Some Mock.story_row /\
    committed_nodes (db w') = nodes (db w').
Proof.
  exact (@first_valid_answer_is_committed Mock.scripted 2 "session-1" "pirates"
           (Mock.start [inr (AIMessage "<story: raw fork>")])
           (AIMessage "<story: raw fork>") []
           (mkStoryLLMResponse "The Road" (NodeDict Mock.fork_dict)) Mock.raw_fork
           empty_session_wf eq_refl eq_refl eq_refl eq_refl).
Defined.

(* ===================================================================== *)
(** ** The cost of node repairs *)
(* ===================================================================== *)

Section RepairCost.
Context {C : Collaborators}.

Lemma resolve_calls (next_node_data : NodeData) (w : World) :
  exists evs,
    log (snd (resolve_next_node next_node_data w)) = log w ++ evs /\
    count_events is_invoke evs <= 1 /\
    count_events is_add_node evs = 0.
Proof.
  destruct next_node_data as [d|n].
  - destruct (model_validate d) as [e|n] eqn:Hv.
    + destruct (invoke (llm w) (node_repair_messages d)) as [r s1] eqn:Hi.
      rewrite (resolve_repair _ _ _ _ _ Hv Hi). eexists [_]. cbn. auto.
    + rewrite (resolve_valid _ _ _ Hv). exists []. cbn. rewrite app_nil_r. auto.
  - exists []. cbn. rewrite app_nil_r. auto.
Qed.

Lemma process_options_calls (rec : StoryNodeLLM -> M StoryNode.t) :
  (forall child (w : World) row w',
     rec child w = (Return row, w') ->
     exists evs, log w' = log w ++ evs /\
                 count_events is_invoke evs < count_events is_add_node evs) ->
  forall opts payload (w : World) payload' w',
    process_options rec opts payload w = (Return payload', w') ->
    exists evs, log w' = log w ++ evs /\
                count_events is_invoke evs <= count_events is_add_node evs.
Proof.
  intros Hrec opts. induction opts as [|o rest IH]; intros payload w payload' w' Hrun.
  - cbn in Hrun. injection Hrun as <- <-. exists []. rewrite app_nil_r. auto.
  - cbn [process_options] in Hrun. unfold bind at 1 in Hrun.
    destruct (resolve_calls (nextNode o) w) as (evs1 & Hlog1 & Hi1 & Ha1).
    destruct (resolve_next_node (nextNode o) w) as [[child|e|] w1];
      cbn [snd] in Hlog1; try discriminate.
    unfold bind at 1 in Hrun.
    destruct (rec child w1) as [[row|e|] w2] eqn:Hcall; try discriminate.
    destruct (Hrec _ _ _ _ Hcall) as (evs2 & Hlog2 & Hlt2).
    destruct (IH _ _ _ _ Hrun) as (evs3 & Hlog3 & Hle3).
    exists (evs1 ++ evs2 ++ evs3).
    rewrite Hlog3, Hlog2, Hlog1, <- !app_assoc. split; [reflexivity|].
    rewrite !count_events_app. lia.
Qed.

(** X12.  A materialize call that returns has called the model at most
    once for each child row it inserted: fewer calls than rows, the row of
    its own node costing none. *)
Theorem one_repair_call_per_child (fuel : nat) :
  forall (sid : nat) (nd : StoryNodeLLM) (is_root : bool) (w : World) node w',
    _process_story_node fuel sid nd is_root w = (Return node, w') ->
    exists evs,
      log w' = log w ++ evs /\
      count_events is_invoke evs < count_events is_add_node evs.
Proof.
  induction fuel as [|fuel IH]; intros sid nd is_root w node w' Hrun; [discriminate|].
  rewrite process_story_node_S in Hrun. cbv zeta in Hrun.
  destruct (isEnding nd).
  - injection Hrun as <- <-. eexists [_]. split; [reflexivity|]. cbn. lia.
  - destruct (process_options _ (options nd) [] _) as [[payload|e|] w2] eqn:Hloop;
      try discriminate.
    destruct (process_options_calls _ (fun child w0 row w0' H => IH sid child false w0 row w0' H)
                _ _ _ _ _ Hloop) as (evs & Hlog & Hle).
    unfold db_set_options in Hrun. injection Hrun as <- <-.
    exists (EvAddNode (fresh_row w sid nd is_root) :: evs
            ++ [EvSetOptions (next_node_id (db w)) payload]).
    cbn [log]. rewrite Hlog. cbn [added log]. rewrite <- !app_assoc.
    split; [reflexivity|].
    cbn [count_events is_invoke is_add_node]. rewrite !count_events_app. cbn. lia.
Qed.

End RepairCost.

(** One broken child repaired on the first try: one call, three rows. *)
Lemma one_repair_call_per_child_witness :
  exists evs,
    log (snd (@_process_story_node Mock.scripted 2 1 Mock.cracked true
                (Mock.start [inr (AIMessage "<node: lose>")])))
      = log (Mock.start [inr (AIMessage "<node: lose>")]) ++ evs /\
    count_events is_invoke evs < count_events is_add_node evs.
Proof.
  apply (@one_repair_call_per_child Mock.scripted 2 1 Mock.cracked true
           (Mock.start [inr (AIMessage "<node: lose>")])
           (StoryNode.mk 1 1 "A fork in the road." true false false
              [mkOptionRow "Go left" 2; mkOptionRow "Go right" 3])).
  vm_compute. reflexivity.
Defined.
